(** * Directory traversal logger and e-mail notifier

    A shallow embedding of [directory_traversal_log_generator.py].

    The script is one linear sequence of side effects: prompt for a path,
    walk the directory, write the log, mail it, trash it.  The embedding
    makes every effect explicit:

    - the process state is a record [world] (platform, working directory,
      file tree, standard input and output, clock, host and user names, the
      open file handle, the trash, the mail relay and a trace of events);
    - a Python call is a function [world -> outcome A * world], where an
      [outcome] is a normal return, a raised [Exception] or [SystemExit];
    - [try ... except Exception] and [with open(...)] are combinators;
    - [os.walk] builds a generator that does nothing until it is iterated;
    - [pip] works on a Python environment [pyenv] of its own: what can
      be imported, and what the installer does.

    A string is a Python [str] in UTF-8; a byte that belongs to no
    well-formed sequence stands for the lone surrogate Python decodes it
    to ([surrogateescape], as for file names on POSIX).

    Out of the model: symbolic links, write and search permissions, and
    asynchronous interrupts.  On Windows the model reads a root line as
    the platform does only when the line is plain ([plain_windows_root]:
    no drive-relative path such as [C:] or [C:name], no [.] or [..], no
    UNC or device path) and spells the names as the tree does (the
    platform ignores case and knows short names); the properties that
    depend on the root assume it ([reads_root]). *)

From Stdlib Require Import String Ascii List Arith Bool Lia.
From Stdlib Require Import Numbers.DecimalString Sorting.Permutation.
Import ListNotations.
Open Scope list_scope.
Open Scope string_scope.

Set Implicit Arguments.

(** ** Platforms and path strings *)

Inductive platform := Posix | Windows.

(** [os.sep]: the separator the platform inserts when it joins paths. *)
Definition sep (pf : platform) : ascii :=
  match pf with
  | Posix => "/"%char
  | Windows => "\"%char
  end.

(** The characters the platform splits a path on, [os.sep] and [os.altsep]:
    the slash on both platforms, the backslash on Windows only. *)
Definition is_sep (pf : platform) (c : ascii) : bool :=
  if Ascii.eqb c "/" then true
  else if Ascii.eqb c "\" then
         match pf with
         | Windows => true
         | Posix => false
         end
       else false.

(** Raw split of a string at the characters satisfying [p], empty fields kept
    (Python's [str.split] with one separator). *)
Fixpoint fields (p : ascii -> bool) (s : string) : list string :=
  match s with
  | EmptyString => [EmptyString]
  | String c s' =>
      if p c then EmptyString :: fields p s'
      else match fields p s' with
           | t :: ts => String c t :: ts
           | [] => [String c EmptyString]
           end
  end.

Definition nonempty (s : string) : bool :=
  match s with
  | EmptyString => false
  | String _ _ => true
  end.

(** The components of a path string: its non-empty fields. *)
Definition components (pf : platform) (s : string) : list string :=
  filter nonempty (fields (is_sep pf) s).

(** Resolution of [.] and [..] against a stack of components (innermost
    first). *)
Fixpoint normalize (stack : list string) (cs : list string) : list string :=
  match cs with
  | [] => rev stack
  | c :: cs' =>
      if String.eqb c "." then normalize stack cs'
      else if String.eqb c ".." then normalize (tl stack) cs'
      else normalize (c :: stack) cs'
  end.

Fixpoint last_char (s : string) : option ascii :=
  match s with
  | EmptyString => None
  | String c EmptyString => Some c
  | String _ s' => last_char s'
  end.

Definition ends_with_sep (pf : platform) (s : string) : bool :=
  match last_char s with
  | Some c => is_sep pf c
  | None => false
  end.

Definition starts_with_sep (pf : platform) (s : string) : bool :=
  match s with
  | String c _ => is_sep pf c
  | EmptyString => false
  end.

(** A Windows drive component such as [C:]. *)
Definition is_drive (s : string) : bool :=
  match last_char s with
  | Some c => Ascii.eqb c ":"
  | None => false
  end.

(** The directory a path string is interpreted from: the root for an
    absolute path, the working directory otherwise.  On Windows a path that
    starts with a separator is rooted at the drive of the working
    directory. *)
Definition base_of (pf : platform) (cwd : list string) (s : string) : list string :=
  match pf with
  | Posix => if starts_with_sep Posix s then [] else cwd
  | Windows =>
      match components Windows s with
      | d :: _ =>
          if is_drive d then []
          else if starts_with_sep Windows s then firstn 1 cwd else cwd
      | [] => if starts_with_sep Windows s then firstn 1 cwd else cwd
      end
  end.

(** The file a path string denotes, as the list of names leading to it from
    the root of the file tree. *)
Definition resolve (pf : platform) (cwd : list string) (s : string) : list string :=
  normalize (rev (base_of pf cwd s)) (components pf s).

(** [os.path.join top name] for a plain [name]: the separator is inserted
    unless [top] is empty or already ends with one. *)
Definition join (pf : platform) (top name : string) : string :=
  if nonempty top && negb (ends_with_sep pf top)
  then top ++ String (sep pf) name
  else top ++ name.

(** Concatenation of a list of strings, in order. *)
Definition cat_all (l : list string) : string :=
  fold_right append EmptyString l.

(** [os.getcwd()]: the absolute path string of the working directory. *)
Definition render_cwd (pf : platform) (cwd : list string) : string :=
  match pf with
  | Posix =>
      match cwd with
      | [] => "/"
      | _ => cat_all (map (String "/"%char) cwd)
      end
  | Windows =>
      match cwd with
      | [] => "\"
      | [d] => d ++ "\"
      | d :: rest => d ++ cat_all (map (String "\"%char) rest)
      end
  end.

(** ** The file tree *)

(** A regular file with its text, or a directory with its entries in
    listing order.  [listable] is false for a directory whose listing the
    operating system refuses ([scandir] raises [PermissionError]). *)
#[local] Unset Elimination Schemes.
Inductive node :=
| File (content : string)
| Dir (listable : bool) (entries : list (string * node)).
#[local] Set Elimination Schemes.

Definition is_dir (n : node) : bool :=
  match n with
  | Dir _ _ => true
  | File _ => false
  end.

Fixpoint find_entry (name : string) (es : list (string * node)) : option node :=
  match es with
  | [] => None
  | (k, v) :: es' => if String.eqb k name then Some v else find_entry name es'
  end.

Fixpoint set_entry (name : string) (n : node) (es : list (string * node))
  : list (string * node) :=
  match es with
  | [] => [(name, n)]
  | (k, v) :: es' =>
      if String.eqb k name then (k, n) :: es' else (k, v) :: set_entry name n es'
  end.

Fixpoint del_entry (name : string) (es : list (string * node))
  : list (string * node) :=
  match es with
  | [] => []
  | (k, v) :: es' =>
      if String.eqb k name then es' else (k, v) :: del_entry name es'
  end.

Fixpoint lookup (cs : list string) (n : node) : option node :=
  match cs with
  | [] => Some n
  | c :: cs' =>
      match n with
      | Dir _ es =>
          match find_entry c es with
          | Some ch => lookup cs' ch
          | None => None
          end
      | File _ => None
      end
  end.

(** Write [content] to the regular file at [cs], creating it in an existing
    directory when it is absent; [None] when the operating system would
    refuse (the target is a directory, or its parent is missing or is a
    file). *)
Fixpoint store (cs : list string) (content : string) (n : node) : option node :=
  match cs with
  | [] =>
      match n with
      | File _ => Some (File content)
      | Dir _ _ => None
      end
  | c :: cs' =>
      match n with
      | Dir b es =>
          match find_entry c es with
          | Some ch =>
              match store cs' content ch with
              | Some ch' => Some (Dir b (set_entry c ch' es))
              | None => None
              end
          | None =>
              match cs' with
              | [] => Some (Dir b (set_entry c (File content) es))
              | _ :: _ => None
              end
          end
      | File _ => None
      end
  end.

(** Detach the node at [cs] from its directory: the detached node and the
    remaining tree. *)
Fixpoint detach (cs : list string) (n : node) : option (node * node) :=
  match cs with
  | [] => None
  | c :: cs' =>
      match n with
      | Dir b es =>
          match find_entry c es with
          | Some ch =>
              match cs' with
              | [] => Some (ch, Dir b (del_entry c es))
              | _ :: _ =>
                  match detach cs' ch with
                  | Some (x, ch') => Some (x, Dir b (set_entry c ch' es))
                  | None => None
                  end
              end
          | None => None
          end
      | File _ => None
      end
  end.

(** ** [os.walk] *)

(** One item of the traversal: the tuple [(folder, subfolder, file)] the
    loop of [generate_result_log] unpacks. *)
Record entry := Entry {
  folder : string;
  subfolder : list string;
  file : list string
}.

Definition dirnames (es : list (string * node)) : list string :=
  map fst (filter (fun e => is_dir (snd e)) es).

Definition filenames (es : list (string * node)) : list string :=
  map fst (filter (fun e => negb (is_dir (snd e))) es).

(** [os.walk(top)] with its defaults [topdown=True, onerror=None]: the
    directory is listed with [scandir]; when the listing fails (not a
    directory, or not listable) the error is ignored and nothing is yielded;
    otherwise the directory's own item comes first and each subdirectory is
    walked in listing order under the joined path. *)
Fixpoint walk_node (pf : platform) (top : string) (n : node) : list entry :=
  match n with
  | File _ => []
  | Dir false _ => []
  | Dir true es =>
      Entry top (dirnames es) (filenames es)
      :: flat_map (fun e => if is_dir (snd e)
                            then walk_node pf (join pf top (fst e)) (snd e)
                            else []) es
  end.

(** ** Exceptions, outcomes and the process state *)

(** An instance of Python's [Exception]; [exn_text] is what [str(e)] and
    [print(e)] show. *)
Record exn := Exn { exn_class : string; exn_text : string }.

(** How a call ends: it returns, it raises an [Exception], or it raises
    [SystemExit] through [exit(code)], which [except Exception] does not
    catch. *)
Inductive outcome (A : Type) :=
| Ret (a : A)
| Raise (e : exn)
| Exit (code : nat).
Arguments Ret {A} a.
Arguments Raise {A} e.
Arguments Exit {A} code.

(** A reading of [datetime.now()]. *)
Record datetime := DateTime {
  year : nat; month : nat; day : nat;
  hour : nat; minute : nat; second : nat; microsecond : nat;
  weekday : nat
}.

(** The message [yag.send] hands to the mail relay. *)
Record mail := Mail {
  mail_user : string;
  mail_password : string;
  mail_to : string;
  mail_subject : string;
  mail_contents : string;
  mail_attachments : string
}.

(** What the process does to the log file, to the relay and to the trash,
    in the order it does it. *)
Inductive event :=
| EvOpen (p : list string)
| EvWrite (p : list string) (text : string)
| EvClose (p : list string)
| EvMailBegin (m : mail)
| EvMailEnd (sent : bool)
| EvTrash (path : string).

#[local] Set Primitive Projections.
Record world := World {
  os : platform;
  cwd : list string;
  fs : node;
  stdin : list string;
  stdout : list string;
  now : datetime;
  hostname : string;
  username : string;
  (** the file object [f] while it is open: its path and the text written *)
  handle : option (list string * string);
  trash : list (list string * node);
  (** the mail relay: from the message and the node found at the attachment
      path to the exception [yag.send] raises, if any *)
  relay : mail -> option node -> option exn;
  outbox : list mail;
  trace : list event
}.
#[local] Unset Primitive Projections.

Definition set_fs (w : world) (x : node) : world :=
  World (os w) (cwd w) x (stdin w) (stdout w) (now w) (hostname w)
        (username w) (handle w) (trash w) (relay w) (outbox w) (trace w).

Definition set_stdin (w : world) (x : list string) : world :=
  World (os w) (cwd w) (fs w) x (stdout w) (now w) (hostname w)
        (username w) (handle w) (trash w) (relay w) (outbox w) (trace w).

Definition set_stdout (w : world) (x : list string) : world :=
  World (os w) (cwd w) (fs w) (stdin w) x (now w) (hostname w)
        (username w) (handle w) (trash w) (relay w) (outbox w) (trace w).

Definition set_handle (w : world) (x : option (list string * string)) : world :=
  World (os w) (cwd w) (fs w) (stdin w) (stdout w) (now w) (hostname w)
        (username w) x (trash w) (relay w) (outbox w) (trace w).

Definition set_trash (w : world) (x : list (list string * node)) : world :=
  World (os w) (cwd w) (fs w) (stdin w) (stdout w) (now w) (hostname w)
        (username w) (handle w) x (relay w) (outbox w) (trace w).

Definition set_outbox (w : world) (x : list mail) : world :=
  World (os w) (cwd w) (fs w) (stdin w) (stdout w) (now w) (hostname w)
        (username w) (handle w) (trash w) (relay w) x (trace w).

(** Events are recorded in order of occurrence. *)
Definition log_event (w : world) (e : event) : world :=
  World (os w) (cwd w) (fs w) (stdin w) (stdout w) (now w) (hostname w)
        (username w) (handle w) (trash w) (relay w) (outbox w) (List.app (trace w) [e]).

(** ** Calls *)

Definition M (A : Type) : Type := world -> outcome A * world.

Definition ret {A} (a : A) : M A := fun w => (Ret a, w).

Definition bind {A B} (c : M A) (k : A -> M B) : M B := fun w =>
  match c w with
  | (Ret a, w') => k a w'
  | (Raise e, w') => (Raise e, w')
  | (Exit n, w') => (Exit n, w')
  end.

Notation "x <- c ;; k" := (bind c (fun x => k))
  (at level 61, c at next level, right associativity).
Notation "c ;; k" := (bind c (fun _ => k))
  (at level 61, right associativity).

(** [exit(code)] raises [SystemExit]. *)
Definition exit {A} (code : nat) : M A := fun w => (Exit code, w).

(** [try: body  except Exception as e: handler e]. *)
Definition try_except {A} (body : M A) (handler : exn -> M A) : M A := fun w =>
  match body w with
  | (Raise e, w') => handler e w'
  | r => r
  end.

(** [for x in l: body x]. *)
Fixpoint for_each {A} (l : list A) (body : A -> M unit) : M unit :=
  match l with
  | [] => ret tt
  | x :: l' => body x ;; for_each l' body
  end.

Definition nl : string := String "010"%char EmptyString.

(** [print(s)] writes [s] and a newline to standard output. *)
Definition print (s : string) : M unit := fun w =>
  (Ret tt, set_stdout w (List.app (stdout w) [s ++ nl])).

(** [input(prompt)] writes the prompt and reads one line; at end of input it
    raises [EOFError]. *)
Definition input (prompt : string) : M string := fun w =>
  let w' := set_stdout w (List.app (stdout w) [prompt]) in
  match stdin w with
  | line :: rest => (Ret line, set_stdin w' rest)
  | [] => (Raise (Exn "EOFError" "EOF when reading a line"), w')
  end.

Definition getcwd : M string := fun w => (Ret (render_cwd (os w) (cwd w)), w).
Definition gethostname : M string := fun w => (Ret (hostname w), w).
Definition getuser : M string := fun w => (Ret (username w), w).
Definition datetime_now : M datetime := fun w => (Ret (now w), w).

(** *** Rendering of the timestamp *)

Definition digits (n : nat) : string := NilEmpty.string_of_uint (Nat.to_uint n).

Fixpoint zeros (k : nat) : string :=
  match k with
  | O => EmptyString
  | S k' => String "0"%char (zeros k')
  end.

(** Decimal rendering, zero-padded on the left to [width] characters. *)
Definition pad (width n : nat) : string :=
  zeros (width - String.length (digits n)) ++ digits n.

(** [str(watch.date())]: [YYYY-MM-DD]. *)
Definition str_date (t : datetime) : string :=
  pad 4 (year t) ++ "-" ++ pad 2 (month t) ++ "-" ++ pad 2 (day t).

(** [str(watch.time())]: [HH:MM:SS.ffffff]; the fraction is left out when
    the microsecond is zero. *)
Definition str_time (t : datetime) : string :=
  pad 2 (hour t) ++ ":" ++ pad 2 (minute t) ++ ":" ++ pad 2 (second t)
  ++ (if Nat.eqb (microsecond t) 0 then EmptyString else "." ++ pad 6 (microsecond t)).

(** [watch.strftime('%A')]: the full weekday name, Monday being day 0. *)
Definition str_day (t : datetime) : string :=
  nth (weekday t)
      ["Monday"; "Tuesday"; "Wednesday"; "Thursday"; "Friday"; "Saturday"; "Sunday"]
      EmptyString.

(** *** Text and its UTF-8 encoding *)

(** A string of the model is a Python [str] in UTF-8; a byte that is not
    part of a well-formed sequence stands for the lone surrogate Python
    decodes it to (file names are decoded with [surrogateescape]). *)

Definition byte_in (lo hi : nat) (c : ascii) : bool :=
  Nat.leb lo (nat_of_ascii c) && Nat.leb (nat_of_ascii c) hi.

(** The ranges of the bytes that must follow a lead byte in well-formed
    UTF-8 (no overlong form, no encoded surrogate, nothing above U+10FFFF);
    [None] for a byte that starts no sequence. *)
Definition continuation (c : ascii) : option (list (nat * nat)) :=
  let n := nat_of_ascii c in
  if Nat.leb n 127 then Some []
  else if Nat.leb n 193 then None
  else if Nat.leb n 223 then Some [(128, 191)]
  else if Nat.eqb n 224 then Some [(160, 191); (128, 191)]
  else if Nat.leb n 236 then Some [(128, 191); (128, 191)]
  else if Nat.eqb n 237 then Some [(128, 159); (128, 191)]
  else if Nat.leb n 239 then Some [(128, 191); (128, 191)]
  else if Nat.eqb n 240 then Some [(144, 191); (128, 191); (128, 191)]
  else if Nat.leb n 243 then Some [(128, 191); (128, 191); (128, 191)]
  else if Nat.eqb n 244 then Some [(128, 143); (128, 191); (128, 191)]
  else None.

(** The string starts with bytes in the given ranges, in order. *)
Fixpoint follows (ranges : list (nat * nat)) (s : string) : bool :=
  match ranges with
  | [] => true
  | (lo, hi) :: ranges' =>
      match s with
      | String c s' => byte_in lo hi c && follows ranges' s'
      | EmptyString => false
      end
  end.

(** The characters of the text in order: [None] for a character encoded by
    a well-formed sequence, [Some b] for the surrogate that stands for the
    byte [b].  [skip] counts the bytes still to pass of the sequence being
    read. *)
Fixpoint decode (skip : nat) (s : string) : list (option ascii) :=
  match s with
  | EmptyString => []
  | String c s' =>
      match skip with
      | S k => decode k s'
      | O =>
          match continuation c with
          | Some ranges =>
              if follows ranges s' then None :: decode (length ranges) s'
              else Some c :: decode 0 s'
          | None => Some c :: decode 0 s'
          end
      end
  end.

Definition is_surrogate (x : option ascii) : bool :=
  match x with
  | Some _ => true
  | None => false
  end.

(** The UTF-8 encoder accepts the text: it holds no surrogate. *)
Definition encodable (s : string) : bool :=
  negb (existsb is_surrogate (decode 0 s)).

Definition hex_digit (n : nat) : ascii :=
  nth n ["0"; "1"; "2"; "3"; "4"; "5"; "6"; "7"; "8"; "9";
         "a"; "b"; "c"; "d"; "e"; "f"]%char "0"%char.

(** The number of characters before the first surrogate. *)
Fixpoint first_surrogate (l : list (option ascii)) : nat :=
  match l with
  | None :: l' => S (first_surrogate l')
  | _ => 0
  end.

(** The number of surrogates the list starts with. *)
Fixpoint surrogates (l : list (option ascii)) : nat :=
  match l with
  | Some _ :: l' => S (surrogates l')
  | _ => 0
  end.

(** [str(e)] for the [UnicodeEncodeError] the encoder raises on the text:
    it names the first run of surrogates. *)
Definition encode_error_text (s : string) : string :=
  let l := decode 0 s in
  let start := first_surrogate l in
  let run := skipn start l in
  match run with
  | Some b :: _ =>
      if Nat.eqb (surrogates run) 1
      then "'utf-8' codec can't encode character '\udc"
           ++ String (hex_digit (nat_of_ascii b / 16))
                (String (hex_digit (nat_of_ascii b mod 16)) EmptyString)
           ++ "' in position " ++ digits start ++ ": surrogates not allowed"
      else "'utf-8' codec can't encode characters in position "
           ++ digits start ++ "-" ++ digits (start + surrogates run - 1)
           ++ ": surrogates not allowed"
  | _ => EmptyString
  end.

(** *** Files *)

(** [open(name, 'w+', encoding='utf-8')]: the file is created, or truncated
    when it exists. *)
Definition open_w (name : string) : M unit := fun w =>
  let p := resolve (os w) (cwd w) name in
  match store p EmptyString (fs w) with
  | Some t => (Ret tt, log_event (set_handle (set_fs w t) (Some (p, EmptyString)))
                                 (EvOpen p))
  | None => (Raise (Exn "OSError" name), w)
  end.

(** [f.write(s)] on a file opened with [encoding='utf-8']: the text is
    encoded and appended to what the file object holds; text the encoder
    refuses raises [UnicodeEncodeError] and nothing of it is appended. *)
Definition write (s : string) : M unit := fun w =>
  match handle w with
  | Some (p, text) =>
      if encodable s
      then (Ret tt, log_event (set_handle w (Some (p, text ++ s))) (EvWrite p s))
      else (Raise (Exn "UnicodeEncodeError" (encode_error_text s)), w)
  | None => (Raise (Exn "ValueError" "I/O operation on closed file."), w)
  end.

(** Closing flushes the text to the file. *)
Definition close : M unit := fun w =>
  match handle w with
  | Some (p, text) =>
      let t := match store p text (fs w) with
               | Some t => t
               | None => fs w
               end in
      (Ret tt, log_event (set_handle (set_fs w t) None) (EvClose p))
  | None => (Ret tt, w)
  end.

(** [with open(name, 'w+', encoding='utf-8') as f: body]: the file is closed
    however the body ends. *)
Definition with_open (name : string) (body : M unit) : M unit := fun w =>
  match open_w name w with
  | (Ret _, w1) =>
      let (r, w2) := body w1 in
      let (_, w3) := close w2 in
      (r, w3)
  | r => r
  end.

(** *** The directory walk *)

(** The generator object [os.walk(top)] returns: it only remembers [top]. *)
Inductive generator := Walk (top : string).

(** Calling [os.walk] lists nothing and raises nothing: the body of a
    generator runs when it is iterated. *)
Definition os_walk (path : string) : M generator := ret (Walk path).

(** How POSIX follows the components of a path from the directory [cur]:
    every component, also [.] and [..], is looked up in a directory that
    exists; [..] leads to the parent (the root is its own parent).  The
    result is the path reached, which may denote nothing when the last
    component is a name. *)
Fixpoint walk_to (t : node) (cur : list string) (cs : list string)
  : option (list string) :=
  match cs with
  | [] => Some cur
  | c :: cs' =>
      match lookup cur t with
      | Some (Dir _ _) =>
          if String.eqb c "." then walk_to t cur cs'
          else if String.eqb c ".." then walk_to t (removelast cur) cs'
          else walk_to t (List.app cur [c]) cs'
      | _ => None
      end
  end.

(** What [top] denotes when [scandir(top)] is called.  POSIX follows the
    path through the tree; Windows first resolves [.] and [..] in the
    string. *)
Definition root_node (pf : platform) (wd : list string) (t : node) (top : string)
  : option node :=
  match pf with
  | Posix =>
      match walk_to t (if starts_with_sep Posix top then [] else wd)
                    (components Posix top) with
      | Some p => lookup p t
      | None => None
      end
  | Windows => lookup (resolve Windows wd top) t
  end.

(** The items the generator yields when it is iterated in file tree [t].
    [scandir] fails with an [OSError] on the empty string and on a path
    that denotes nothing; [os.walk] ignores the failure and yields
    nothing. *)
Definition walk_items (pf : platform) (wd : list string) (t : node) (top : string)
  : list entry :=
  if nonempty top then
    match root_node pf wd t top with
    | Some n => walk_node pf top n
    | None => []
    end
  else [].

(** The string holds a NUL character. *)
Fixpoint has_nul (s : string) : bool :=
  match s with
  | EmptyString => false
  | String c s' => Ascii.eqb c "000" || has_nul s'
  end.

(** Iteration of the generator by the [for] loop.  A NUL character in
    [top] makes the first [scandir] raise [ValueError], which is no
    [OSError]: [os.walk] lets it through.  Otherwise the loop body only
    appends to the open file object, so the file tree is the same at every
    step and the items are those of the tree at the first step. *)
Definition iterate (g : generator) : M (list entry) := fun w =>
  match g with
  | Walk top =>
      if has_nul top
      then (Raise (Exn "ValueError"
                       match os w with
                       | Posix => "embedded null byte"
                       | Windows => "scandir: embedded null character in path"
                       end), w)
      else (Ret (walk_items (os w) (cwd w) (fs w) top), w)
  end.

(** ** The script *)

Definition log_name : string := "directory_traversal_log.txt".

(** The two literals of the separator write, 35 and 39 equals signs. *)
Definition bar : string :=
  "===================================" ++
  "=======================================".

(** The block the [try] statement of [setup] guards. *)
Definition setup_guarded (path : string) : M (generator * datetime) :=
  tree <- os_walk path ;;
  watch <- datetime_now ;;
  ret (tree, watch).

(** [setup()] *)
Definition setup : M (generator * datetime) :=
  path <- input "Enter Path: " ;;
  try_except (setup_guarded path)
    (fun e1 => print ("ERROR OCCURRED: " ++ exn_text e1) ;; exit 0).

(** [info()] *)
Definition info : M unit :=
  print "Instructions:" ;;
  print "---> This is a directory traversal log generator." ;;
  print "---> Input format for path is exactly as usual" ;;
  print "--->only difference is that there are 2 backslashes in place of one." ;;
  print ("---> The result file will be generated at the same " ++
         "location from where you are running this script.").

(** The body of the [for folder, subfolder, file in tree] loop. *)
Definition write_entry (e : entry) : M unit :=
  write (nl ++ nl ++ bar) ;;
  write (nl ++ "FOLDER: " ++ folder e) ;;
  write (nl ++ "---> Subfolders:") ;;
  for_each (subfolder e) (fun x => write (nl ++ "------> " ++ x)) ;;
  write (nl ++ "---> Files:") ;;
  for_each (file e) (fun k => write (nl ++ "------> " ++ k)).

(** [generate_result_log()] *)
Definition generate_result_log : M unit :=
  tw <- setup ;;
  let (tree, watch) := tw in
  with_open log_name
    (write ("THE DIRECTORY TRAVERSAL LOG:" ++ nl ++ nl) ;;
     write ("Date: " ++ str_date watch ++ nl) ;;
     write ("Time: " ++ str_time watch ++ nl) ;;
     write ("Day: " ++ str_day watch ++ nl) ;;
     h <- gethostname ;;
     write ("Host name: " ++ h ++ nl) ;;
     u <- getuser ;;
     write ("Username: " ++ u) ;;
     items <- iterate tree ;;
     for_each items write_entry) ;;
  print (nl ++ "All done :)").

Definition sender : string := "missingchildfound2025@gmail.com".
Definition password : string := "ejvs prqg wjuh qkrm".

(** [yag.send(...)]: the relay sees the message and what the attachment
    path denotes, and either takes the message or makes the call raise. *)
Definition yag_send (m : mail) : M unit := fun w =>
  let w1 := log_event w (EvMailBegin m) in
  let found := lookup (resolve (os w) (cwd w) (mail_attachments m)) (fs w) in
  match relay w m found with
  | None => (Ret tt, log_event (set_outbox w1 (List.app (outbox w) [m])) (EvMailEnd true))
  | Some e => (Raise e, log_event w1 (EvMailEnd false))
  end.

(** [send_email(receiver)] *)
Definition send_email (receiver : string) : M unit :=
  wd <- getcwd ;;
  let path := wd ++ "\directory_traversal_log.txt" in
  yag_send (Mail sender password receiver "Directory log"
                 "This is a system generated email, kindly do not reply." path).

(** [send2trash.send2trash(path)]: what the path denotes is moved to the
    trash; [OSError] when it denotes nothing. *)
Definition send2trash (path : string) : M unit := fun w =>
  let w1 := log_event w (EvTrash path) in
  let p := resolve (os w) (cwd w) path in
  match detach p (fs w) with
  | Some (x, t) => (Ret tt, set_trash (set_fs w1 t) (List.app (trash w) [(p, x)]))
  | None => (Raise (Exn "OSError" ("File not found: " ++ path)), w1)
  end.

(** The three statements after [generate_result_log()] in the main block. *)
Definition mail_step : M unit :=
  try_except
    (receiver <- input "Enter your email id: " ;;
     send_email receiver ;;
     print "Email sent successfully")
    (fun e2 => print (exn_text e2)).

Definition dispose_step : M unit :=
  wd <- getcwd ;;
  send2trash (wd ++ "\directory_traversal_log.txt").

(** The [__main__] block. *)
Definition main : M unit :=
  info ;;
  generate_result_log ;;
  mail_step ;;
  dispose_step.

(** ** The text of the log *)

(** The arguments of the [f.write] calls before the loop. *)
Definition header_chunks (watch : datetime) (host user : string) : list string :=
  [ "THE DIRECTORY TRAVERSAL LOG:" ++ nl ++ nl;
    "Date: " ++ str_date watch ++ nl;
    "Time: " ++ str_time watch ++ nl;
    "Day: " ++ str_day watch ++ nl;
    "Host name: " ++ host ++ nl;
    "Username: " ++ user ].



Definition header_text (watch : datetime) (host user : string) : string :=
  cat_all (header_chunks watch host user).


(** The state of a world with an open file after the given chunks have been
    written to it. *)
Definition wrote (w : world) (chunks : list string) : world :=
  match handle w with
  | Some (p, text) =>
      World (os w) (cwd w) (fs w) (stdin w) (stdout w) (now w) (hostname w)
            (username w) (Some (p, text ++ cat_all chunks)) (trash w) (relay w)
            (outbox w) (List.app (trace w) (map (EvWrite p) chunks))
  | None => w
  end.

(** The file object is open. *)
Definition is_open (w : world) : Prop := handle w <> None.

(** The call only appends to the open file: from a world with an open
    file it ends, however it ends, in that world with some chunks
    written. *)
Definition appends {A} (c : M A) : Prop :=
  forall w, is_open w -> exists r cs, c w = (r, wrote w cs).

(** The path the log writer opens. *)
Definition log_path (w : world) : list string :=
  resolve (os w) (cwd w) log_name.

(** The world [setup] returns in when a line [path] is read. *)
Definition after_setup (w : world) (rest : list string) : world :=
  set_stdin (set_stdout w (List.app (stdout w) ["Enter Path: "])) rest.

(** The world after the chunks [c] have been written to the file opened at
    [p] and the file has been closed. *)
Definition closed (w : world) (p : list string) (c : list string) : world :=
  World (os w) (cwd w)
        (match store p (cat_all c) (fs w) with Some t => t | None => fs w end)
        (stdin w) (stdout w) (now w) (hostname w) (username w) None
        (trash w) (relay w) (outbox w)
        (List.app (trace w) (List.app (map (EvWrite p) c) [EvClose p])).


(** The world [generate_result_log] ends in once the file has been created
    as tree [t1], the chunks [cs] have been written and the file has been
    closed; [done] tells whether the closing line has been printed. *)
Definition after_writes (w : world) (rest : list string) (t1 : node)
  (cs : list string) (done : bool) : world :=
  let p := log_path w in
  World (os w) (cwd w)
        (match store p (cat_all cs) t1 with Some t => t | None => t1 end)
        rest
        (List.app (stdout w)
                  ("Enter Path: "
                   :: if done then [(nl ++ "All done :)") ++ nl] else []))
        (now w) (hostname w) (username w) None (trash w) (relay w) (outbox w)
        (List.app (trace w)
                  (EvOpen p :: List.app (map (EvWrite p) cs) [EvClose p])).

(** The text of the log artifact, when the path the log writer opens
    denotes a regular file. *)
Definition artifact (w : world) : option string :=
  match lookup (log_path w) (fs w) with
  | Some (File text) => Some text
  | _ => None
  end.


(** The world [info] returns in. *)
Definition after_info (w : world) : world :=
  set_stdout w
    (List.app (stdout w)
       [ "Instructions:" ++ nl;
         "---> This is a directory traversal log generator." ++ nl;
         "---> Input format for path is exactly as usual" ++ nl;
         "--->only difference is that there are 2 backslashes in place of one." ++ nl;
         ("---> The result file will be generated at the same " ++
          "location from where you are running this script.") ++ nl ]).

(** The path string the mailer attaches and the disposer trashes. *)
Definition attachment_path (w : world) : string :=
  render_cwd (os w) (cwd w) ++ "\directory_traversal_log.txt".

(** The message [send_email receiver] sends. *)
Definition message (w : world) (receiver : string) : mail :=
  Mail sender password receiver "Directory log"
       "This is a system generated email, kindly do not reply."
       (attachment_path w).

(** Whether the relay takes the message of [send_email receiver]. *)
Definition relay_verdict (w : world) (receiver : string) : option exn :=
  relay w (message w receiver)
        (lookup (resolve (os w) (cwd w) (attachment_path w)) (fs w)).

(** The events of the mail step: none when no address can be read. *)
Definition mail_events (w : world) : list event :=
  match stdin w with
  | [] => []
  | receiver :: _ =>
      [ EvMailBegin (message w receiver);
        EvMailEnd (match relay_verdict w receiver with
                   | None => true
                   | Some _ => false
                   end) ]
  end.

(** ** Well-formed names *)

(** No character of the string satisfies [p]. *)
Fixpoint free (p : ascii -> bool) (s : string) : bool :=
  match s with
  | EmptyString => true
  | String c s' => negb (p c) && free p s'
  end.

(** No character of the string splits a path on the platform. *)
Definition sep_free (pf : platform) (s : string) : bool := free (is_sep pf) s.

(** A name a directory entry can have: not empty, without separator, and
    neither [.] nor [..]. *)
Definition valid_name (pf : platform) (s : string) : bool :=
  nonempty s && sep_free pf s && negb (String.eqb s ".") && negb (String.eqb s "..").

(** The working directory as the operating system reports it: valid names
    from the root and, on Windows, a drive first. *)
Definition valid_cwd (pf : platform) (wd : list string) : bool :=
  forallb (valid_name pf) wd &&
  match pf with
  | Posix => true
  | Windows =>
      match wd with
      | d :: _ => is_drive d
      | [] => false
      end
  end.

(** ** Root lines the model reads as the platform does *)






(** ** The directories a walk enters *)








(** ** The format of the specification *)






(** ** Sample worlds *)

Definition sample_clock : datetime := DateTime 2025 4 21 9 5 7 4250 0.

(** A directory with exactly the folders [A] and [B], [A] holding exactly
    the file [x.txt]. *)
Definition project_dir : node :=
  Dir true [ ("A", Dir true [ ("x.txt", File "hi") ]); ("B", Dir true []) ].

Definition posix_tree : node :=
  Dir true [ ("home", Dir true [ ("u", Dir true [ ("proj", project_dir) ]) ]) ].

Definition windows_tree : node :=
  Dir true [ ("C:", Dir true [ ("Users", Dir true [ ("u", Dir true [ ("proj", project_dir) ]) ]) ]) ].

Definition accepting_relay : mail -> option node -> option exn :=
  fun _ _ => None.

Definition refusing_relay : mail -> option node -> option exn :=
  fun _ _ => Some (Exn "YagAddressError" "Address was given as invalid").

(** A process started in [/home/u] with the given lines on standard input. *)
Definition posix_world (lines : list string)
  (r : mail -> option node -> option exn) : world :=
  World Posix ["home"; "u"] posix_tree lines [] sample_clock "host" "user"
        None [] r [] [].

(** A process started in [C:\Users\u]. *)
Definition windows_world (lines : list string)
  (r : mail -> option node -> option exn) : world :=
  World Windows ["C:"; "Users"; "u"] windows_tree lines [] sample_clock "host" "user"
        None [] r [] [].

(** ** Further notions for the walk *)


(** ** Loading the third-party modules *)

(** The Python environment of the process, as far as [pip] sees it: the
    exception [importlib.import_module] raises for a module name, if any;
    which exceptions are instances of [ImportError] (of the class or of a
    subclass, whatever module defines it), that is, which ones
    [except ImportError] catches; the interpreter [sys.executable]; what
    the command
    [sys.executable -m pip install name] does in an environment (its exit
    status and what can be imported afterwards); and the names the
    installer has been run for, in order. *)
Record pyenv := PyEnv {
  import_raises : string -> option exn;
  import_error : exn -> bool;
  executable : string;
  installer : string -> (string -> option exn) -> nat * (string -> option exn);
  installs : list string
}.

(** How a call that works on the Python environment ends. *)
Definition PyM (A : Type) : Type := pyenv -> outcome A * pyenv.

(** [importlib.import_module(name)]: the module, named here by its name, or
    the exception the import raises. *)
Definition import_module (name : string) : PyM string := fun v =>
  match import_raises v name with
  | None => (Ret name, v)
  | Some e => (Raise e, v)
  end.

(** [subprocess.check_call([sys.executable, "-m", "pip", "install", name])]:
    the installer runs to its end; a non-zero exit status raises
    [CalledProcessError]. *)
Definition check_call_pip_install (name : string) : PyM unit := fun v =>
  let (status, table) := installer v name (import_raises v) in
  let v' := PyEnv table (import_error v) (executable v) (installer v)
                  (List.app (installs v) [name]) in
  if Nat.eqb status 0 then (Ret tt, v')
  else (Raise (Exn "CalledProcessError"
                   ("Command '['" ++ executable v ++ "', '-m', 'pip', 'install', '"
                    ++ name ++ "']' returned non-zero exit status "
                    ++ digits status ++ ".")), v').

(** [pip(module_name)] *)
Definition pip (module_name : string) : PyM string := fun v =>
  match import_module module_name v with
  | (Raise e, v1) =>
      if import_error v1 e then
        match check_call_pip_install module_name v1 with
        | (Ret _, v2) => import_module module_name v2
        | (Raise e', v2) => (Raise e', v2)
        | (Exit n, v2) => (Exit n, v2)
        end
      else (Raise e, v1)
  | r => r
  end.

(** An environment without [yagmail], in which the installer succeeds for
    [yagmail] and fails for every other name. *)
Definition sample_pyenv : pyenv :=
  PyEnv (fun name => if String.eqb name "send2trash" then None
                     else Some (Exn "ModuleNotFoundError"
                                    ("No module named '" ++ name ++ "'")))
        (fun e => String.eqb (exn_class e) "ImportError" ||
                  String.eqb (exn_class e) "ModuleNotFoundError")
        "/usr/bin/python3"
        (fun name table =>
           if String.eqb name "yagmail"
           then (0, fun m => if String.eqb m "yagmail" then None else table m)
           else (1, table))
        [].

(** * Properties *)

(** ** Directory entries *)

Section Entries.

Implicit Types (es : list (string * node)) (n ch : node) (k name : string).

Lemma find_entry_set_same k n es :
  find_entry k (set_entry k n es) = Some n.
Proof.
  induction es as [|[k' v] es IH]; simpl.
  - now rewrite String.eqb_refl.
  - destruct (String.eqb k' k) eqn:E; simpl; now rewrite E.
Qed.

Lemma find_entry_set_other k k' n es :
  k <> k' -> find_entry k' (set_entry k n es) = find_entry k' es.
Proof.
  intros Hne. induction es as [|[k0 v] es IH]; simpl.
  - destruct (String.eqb k k') eqn:E; [apply String.eqb_eq in E; contradiction | reflexivity].
  - destruct (String.eqb k0 k) eqn:E; simpl.
    + apply String.eqb_eq in E. subst k0.
      destruct (String.eqb k k') eqn:E'; [apply String.eqb_eq in E'; contradiction | reflexivity].
    + now rewrite IH.
Qed.

Lemma set_entry_set k n n' es :
  set_entry k n (set_entry k n' es) = set_entry k n es.
Proof.
  induction es as [|[k0 v] es IH]; simpl.
  - now rewrite String.eqb_refl.
  - destruct (String.eqb k0 k) eqn:E; simpl; rewrite E; [reflexivity | now rewrite IH].
Qed.



(** Replacing an entry by a node of the same kind changes no name list. *)
Lemma dirnames_set_same_kind k n ch es :
  find_entry k es = Some ch -> is_dir n = is_dir ch ->
  dirnames (set_entry k n es) = dirnames es /\
  filenames (set_entry k n es) = filenames es.
Proof.
  unfold dirnames, filenames.
  induction es as [|[k0 v] es IH]; simpl; [discriminate|].
  destruct (String.eqb k0 k) eqn:E; simpl.
  - intros [= ->] ->. destruct (is_dir ch); split; reflexivity.
  - intros Hf Hk. destruct (IH Hf Hk) as [IH1 IH2].
    destruct (is_dir v); simpl; split; congruence.
Qed.

(** A new file is listed last among the files. *)
Lemma dirnames_set_new_file k c es :
  find_entry k es = None ->
  dirnames (set_entry k (File c) es) = dirnames es /\
  filenames (set_entry k (File c) es) = (filenames es ++ [k])%list.
Proof.
  unfold dirnames, filenames.
  induction es as [|[k0 v] es IH]; simpl; [intros _; split; reflexivity|].
  destruct (String.eqb k0 k) eqn:E; simpl; [discriminate|].
  intros Hf. destruct (IH Hf) as [IH1 IH2].
  destruct (is_dir v); simpl; split; congruence.
Qed.

End Entries.

(** ** The file tree *)


(** [store] keeps the kind of the node it is applied to. *)
Lemma store_is_dir p c t t' : store p c t = Some t' -> is_dir t' = is_dir t.
Proof.
  destruct p as [|k p]; simpl.
  - destruct t; [intros [= <-]; reflexivity | discriminate].
  - destruct t as [|b es]; [discriminate|].
    destruct (find_entry k es).
    + destruct (store p c n); [intros [= <-]; reflexivity | discriminate].
    + destruct p; [intros [= <-]; reflexivity | discriminate].
Qed.

(** After a successful [store] the path denotes a file with the text. *)
Lemma lookup_store p c t t' :
  store p c t = Some t' -> lookup p t' = Some (File c).
Proof.
  revert t t'. induction p as [|k p IH]; intros t t'; simpl.
  - destruct t; [intros [= <-]; reflexivity | discriminate].
  - destruct t as [|b es]; [discriminate|].
    destruct (find_entry k es) as [ch|] eqn:Hf.
    + destruct (store p c ch) as [ch'|] eqn:Hs; [|discriminate].
      intros [= <-]. rewrite find_entry_set_same. eapply IH; eauto.
    + destruct p; [|discriminate].
      intros [= <-]. now rewrite find_entry_set_same.
Qed.

(** A second [store] at the same path overwrites the first. *)
Lemma store_store p a b t t1 :
  store p a t = Some t1 -> store p b t1 = store p b t.
Proof.
  revert t t1. induction p as [|k p IH]; intros t t1; simpl.
  - destruct t; [intros [= <-]; reflexivity | discriminate].
  - destruct t as [|l es]; [discriminate|].
    destruct (find_entry k es) as [ch|] eqn:Hf.
    + destruct (store p a ch) as [ch'|] eqn:Hs; [|discriminate].
      intros [= <-]. rewrite find_entry_set_same, (IH _ _ Hs).
      destruct (store p b ch); [now rewrite set_entry_set | reflexivity].
    + destruct p; [|discriminate].
      intros [= <-]. rewrite find_entry_set_same. simpl.
      now rewrite set_entry_set.
Qed.

Lemma store_succeeds_again p a b t t1 :
  store p a t = Some t1 -> exists t2, store p b t1 = Some t2.
Proof.
  revert t t1. induction p as [|k p IH]; intros t t1; simpl.
  - destruct t; [intros [= <-]; eauto | discriminate].
  - destruct t as [|l es]; [discriminate|].
    destruct (find_entry k es) as [ch|] eqn:Hf.
    + destruct (store p a ch) as [ch'|] eqn:Hs; [|discriminate].
      intros [= <-]. rewrite find_entry_set_same.
      destruct (IH _ _ Hs) as [t2 ->]. eauto.
    + destruct p; [|discriminate].
      intros [= <-]. rewrite find_entry_set_same. simpl. eauto.
Qed.


(** A directory that exists before a [store] still exists after it, with
    the same subdirectory names and at least the same file names. *)
Lemma store_keeps_directory q : forall p c t t' b es,
  store p c t = Some t' ->
  lookup q t = Some (Dir b es) ->
  exists es', lookup q t' = Some (Dir b es') /\
              dirnames es' = dirnames es /\
              incl (filenames es) (filenames es').
Proof.
  induction q as [|k q IH]; intros p c t t' b es Hs Hl; simpl in *.
  - injection Hl as ->.
    destruct p as [|k0 p]; simpl in Hs; [discriminate|].
    destruct (find_entry k0 es) as [ch|] eqn:Hf.
    + destruct (store p c ch) as [ch'|] eqn:Hs'; [|discriminate].
      injection Hs as <-. eexists. split; [reflexivity|].
      destruct (dirnames_set_same_kind k0 ch' es Hf (store_is_dir _ _ _ Hs')) as [-> ->].
      split; [reflexivity | apply incl_refl].
    + destruct p; [|discriminate].
      injection Hs as <-. eexists. split; [reflexivity|].
      destruct (dirnames_set_new_file k0 c es Hf) as [-> ->].
      split; [reflexivity | apply incl_appl, incl_refl].
  - destruct t as [|b0 es0]; [discriminate|].
    destruct (find_entry k es0) as [ch|] eqn:Hf; [|discriminate].
    destruct p as [|k0 p]; simpl in Hs; [discriminate|].
    destruct (String.eqb k0 k) eqn:E.
    + apply String.eqb_eq in E. subst k0. rewrite Hf in Hs.
      destruct (store p c ch) as [ch'|] eqn:Hs'; [|discriminate].
      injection Hs as <-. simpl. rewrite find_entry_set_same.
      eapply IH; eauto.
    + apply String.eqb_neq in E.
      assert (Hother : forall x, find_entry k (set_entry k0 x es0) = Some ch)
        by (intros x; rewrite find_entry_set_other; auto).
      destruct (find_entry k0 es0) as [ch0|].
      * destruct (store p c ch0); [|discriminate].
        injection Hs as <-. simpl. rewrite Hother. exists es.
        repeat split; auto using incl_refl.
      * destruct p; [|discriminate].
        injection Hs as <-. simpl. rewrite Hother. exists es.
        repeat split; auto using incl_refl.
Qed.

(** ** Strings *)

Lemma append_assoc (a b c : string) : (a ++ b) ++ c = a ++ b ++ c.
Proof. induction a as [|x a IH]; simpl; [reflexivity | now rewrite IH]. Qed.

Lemma append_empty_r (a : string) : a ++ EmptyString = a.
Proof. induction a as [|x a IH]; simpl; [reflexivity | now rewrite IH]. Qed.


Lemma cat_all_app (l1 l2 : list string) :
  cat_all (l1 ++ l2)%list = cat_all l1 ++ cat_all l2.
Proof.
  induction l1 as [|x l1 IH]; simpl; [reflexivity|].
  now rewrite IH, append_assoc.
Qed.

(** ** Running the calls *)

Lemma bind_ret {A B} (c : M A) (k : A -> M B) w a w' :
  c w = (Ret a, w') -> bind c k w = k a w'.
Proof. unfold bind. now intros ->. Qed.

Lemma wrote_nil w : wrote w [] = w.
Proof.
  unfold wrote. destruct w as [? ? ? ? ? ? ? ? [[p text]|] ? ? ? ?]; simpl; [|reflexivity].
  now rewrite append_empty_r, app_nil_r.
Qed.

Lemma wrote_app w c1 c2 : wrote (wrote w c1) c2 = wrote w (c1 ++ c2)%list.
Proof.
  unfold wrote. destruct w as [? ? ? ? ? ? ? ? [[p text]|] ? ? ? ?]; simpl; [|reflexivity].
  now rewrite cat_all_app, append_assoc, map_app, app_assoc.
Qed.

Lemma wrote_open w c : is_open w -> is_open (wrote w c).
Proof.
  unfold is_open, wrote. destruct (handle w) as [[p text]|] eqn:E; simpl; congruence.
Qed.

(** Text the encoder accepts is written. *)
Lemma write_run s w :
  is_open w -> encodable s = true -> write s w = (Ret tt, wrote w [s]).
Proof.
  unfold is_open, write, wrote, log_event, set_handle.
  destruct w as [? ? ? ? ? ? ? ? [[p text]|] ? ? ? ?]; cbn [handle]; [|congruence].
  intros _ ->. cbn [os cwd fs stdin stdout now hostname username trash relay outbox
                    trace cat_all fold_right map].
  now rewrite append_empty_r.
Qed.

(** Text the encoder refuses raises, and nothing is written. *)
Lemma write_refused s w :
  is_open w -> encodable s = false ->
  write s w = (Raise (Exn "UnicodeEncodeError" (encode_error_text s)), w).
Proof.
  unfold is_open, write.
  destruct (handle w) as [[p text]|]; [|congruence]. now intros _ ->.
Qed.





(** ** Calls that only append to the open file *)

Lemma appends_ret {A} (a : A) : appends (ret a).
Proof. intros w _. exists (Ret a), []. now rewrite wrote_nil. Qed.

Lemma appends_write s : appends (write s).
Proof.
  intros w Hw. destruct (encodable s) eqn:E.
  - eexists _, [s]. now apply write_run.
  - eexists _, []. rewrite wrote_nil. now apply write_refused.
Qed.

Lemma appends_bind {A B} (c : M A) (k : A -> M B) :
  appends c -> (forall a, appends (k a)) -> appends (bind c k).
Proof.
  intros Hc Hk w Hw. destruct (Hc w Hw) as (r & cs & Hr).
  unfold bind. rewrite Hr. destruct r as [a|e|n].
  - destruct (Hk a (wrote w cs) (wrote_open cs Hw)) as (r' & cs' & ->).
    exists r', (cs ++ cs')%list. now rewrite wrote_app.
  - now exists (Raise e), cs.
  - now exists (Exit n), cs.
Qed.

Lemma appends_for_each {A} (l : list A) (body : A -> M unit) :
  (forall x, appends (body x)) -> appends (for_each l body).
Proof.
  intros Hb. induction l as [|x l IH]; simpl.
  - apply appends_ret.
  - apply appends_bind; auto.
Qed.

Lemma appends_gethostname : appends gethostname.
Proof. intros w _. exists (Ret (hostname w)), []. now rewrite wrote_nil. Qed.

Lemma appends_getuser : appends getuser.
Proof. intros w _. exists (Ret (username w)), []. now rewrite wrote_nil. Qed.

Lemma appends_iterate g : appends (iterate g).
Proof.
  intros w _. destruct g as [top]. unfold iterate.
  destruct (has_nul top); eexists _, []; now rewrite wrote_nil.
Qed.

Lemma appends_write_entry e : appends (write_entry e).
Proof.
  unfold write_entry.
  repeat first [ apply appends_write
               | apply appends_for_each; intros ?
               | apply appends_bind; [|intros ?] ].
Qed.

(** ** The log writer in closed form *)

Lemma setup_run w path rest :
  stdin w = path :: rest ->
  setup w = (Ret (Walk path, now w), after_setup w rest).
Proof.
  intros Hin. unfold setup, bind, input. rewrite Hin. reflexivity.
Qed.


Lemma close_wrote w p c :
  handle w = Some (p, EmptyString) ->
  close (wrote w c) = (Ret tt, closed w p c).
Proof.
  destruct w as [o c0 t i u n hn un h tr rl ob ev]. cbn [handle]. intros ->.
  unfold close, wrote, closed, log_event, set_handle, set_fs.
  cbn [os cwd fs stdin stdout now hostname username handle trash relay outbox trace append].
  now rewrite <- app_assoc.
Qed.


(** A [with] statement whose body only appends to the file: once the file
    has been created, the statement ends as the body does, with the chunks
    the body has written in the file and the file closed. *)
Lemma with_open_appends name body w t1 :
  appends body ->
  store (resolve (os w) (cwd w) name) EmptyString (fs w) = Some t1 ->
  exists r cs,
    with_open name body w =
    (r, closed (log_event (set_handle (set_fs w t1)
                             (Some (resolve (os w) (cwd w) name, EmptyString)))
                          (EvOpen (resolve (os w) (cwd w) name)))
               (resolve (os w) (cwd w) name) cs).
Proof.
  intros Hb Hst. unfold with_open, open_w.
  set (p := resolve (os w) (cwd w) name) in *. clearbody p.
  rewrite Hst.
  set (w1 := log_event _ _).
  assert (Hopen : is_open w1)
    by (unfold is_open, w1; cbn [handle log_event set_handle]; congruence).
  destruct (Hb w1 Hopen) as (r & cs & ->).
  exists r, cs. now rewrite (@close_wrote w1 p cs eq_refl).
Qed.


Lemma log_path_cwd w : log_path w = (cwd w ++ [log_name])%list.
Proof.
  unfold log_path, resolve.
  assert (Hc : forall pf, components pf log_name = [log_name])
    by (intros []; vm_compute; reflexivity).
  assert (Hb : base_of (os w) (cwd w) log_name = cwd w).
  { unfold base_of. destruct (os w); [reflexivity|]. rewrite Hc. reflexivity. }
  rewrite Hb, Hc. simpl. now rewrite rev_involutive.
Qed.



(** The same for whatever has been written when the file is closed. *)
Lemma after_writes_artifact w rest t1 cs done :
  store (log_path w) EmptyString (fs w) = Some t1 ->
  store (log_path w) (cat_all cs) (fs w) = Some (fs (after_writes w rest t1 cs done)) /\
  artifact (after_writes w rest t1 cs done) = Some (cat_all cs).
Proof.
  intros Hst. unfold artifact.
  change (log_path (after_writes w rest t1 cs done)) with (log_path w).
  unfold after_writes. cbn [fs].
  destruct (store_succeeds_again _ _ (cat_all cs) _ Hst) as [t2 Ht2]. rewrite Ht2.
  rewrite (lookup_store _ _ _ Ht2). split; [|reflexivity].
  now rewrite <- (store_store _ _ (cat_all cs) _ Hst).
Qed.

(** Every way the log writer ends: at end of input the prompt raises; when
    the file cannot be created [open] raises; otherwise the file is
    created, some chunks are written, the file is closed, and the closing
    line is printed when the writing returned. *)
Lemma generate_result_log_outcomes w :
  match stdin w with
  | [] =>
      generate_result_log w =
      (Raise (Exn "EOFError" "EOF when reading a line"),
       set_stdout w (List.app (stdout w) ["Enter Path: "]))
  | path :: rest =>
      match store (log_path w) EmptyString (fs w) with
      | None =>
          generate_result_log w = (Raise (Exn "OSError" log_name), after_setup w rest)
      | Some t1 =>
          exists r cs,
            generate_result_log w =
            (r, after_writes w rest t1 cs
                  match r with Ret _ => true | _ => false end)
      end
  end.
Proof.
  destruct (stdin w) as [|path rest] eqn:Hin.
  - unfold generate_result_log, setup, bind, input. now rewrite Hin.
  - unfold generate_result_log.
    rewrite (@bind_ret _ _ _ _ _ _ _ (setup_run w Hin)).
    destruct (store (log_path w) EmptyString (fs w)) as [t1|] eqn:Hst.
    + unfold bind at 1.
      match goal with |- context [with_open log_name ?b] => set (body := b) end.
      assert (Hb : appends body).
      { unfold body.
        repeat first [ apply appends_write
                     | apply appends_gethostname
                     | apply appends_getuser
                     | apply appends_iterate
                     | apply appends_write_entry
                     | apply appends_for_each; intros ?
                     | apply appends_bind; [|intros ?] ]. }
      destruct (@with_open_appends log_name body (after_setup w rest) t1 Hb Hst)
        as (r & cs & Hr).
      rewrite Hr. exists r, cs. clear Hr Hb. clearbody body.
      unfold after_writes, log_path.
      change (os (after_setup w rest)) with (os w).
      change (cwd (after_setup w rest)) with (cwd w).
      set (p := resolve (os w) (cwd w) log_name) in *. clearbody p.
      destruct w as [o c0 t i u n hn un h tr rl ob ev].
      destruct r as [[]|e|k];
        cbv beta iota delta
          [print closed log_event set_handle set_fs after_setup set_stdin set_stdout
           os cwd fs stdin stdout now hostname username handle trash relay outbox
           trace];
        rewrite <- ?app_assoc; reflexivity.
    + unfold bind, with_open, open_w.
      change (os (after_setup w rest)) with (os w).
      change (cwd (after_setup w rest)) with (cwd w).
      change (fs (after_setup w rest)) with (fs w).
      unfold log_path in Hst. now rewrite Hst.
Qed.
(** * Further lemmas *)

(** ** Setup *)

(** The guarded block of [setup] returns normally in every world, whatever
    the handler: the handler is never run. *)
Lemma setup_guarded_never_raises path h w :
  try_except (setup_guarded path) h w = (Ret (Walk path, now w), w).
Proof. reflexivity. Qed.


(** ** The log writer *)






(** ** The main sequence *)

Lemma info_run w : info w = (Ret tt, after_info w).
Proof.
  destruct w as [o c0 t i u n hn un h tr rl ob ev].
  cbv beta iota zeta delta
      [info bind print after_info set_stdout
       os cwd fs stdin stdout now hostname username handle trash relay outbox trace].
  rewrite <- !app_assoc. reflexivity.
Qed.

(** The main block is the log writer after [info], followed, when the log
    writer has returned, by the mail step and the dispose step. *)
Lemma main_unfold w :
  main w =
  match generate_result_log (after_info w) with
  | (Ret _, w1) => (mail_step ;; dispose_step) w1
  | (Raise e, w1) => (Raise e, w1)
  | (Exit n, w1) => (Exit n, w1)
  end.
Proof.
  unfold main. rewrite (@bind_ret _ _ _ _ _ _ _ (info_run w)).
  unfold bind at 1. reflexivity.
Qed.

(** The log writer either creates the file, writes some chunks and closes
    it, however it ends then, or raises before it has touched anything. *)
Lemma generate_result_log_cases w :
  (exists rest t1 r cs,
      store (log_path w) EmptyString (fs w) = Some t1 /\
      generate_result_log w =
      (r, after_writes w rest t1 cs match r with Ret _ => true | _ => false end)) \/
  (exists e w1,
      generate_result_log w = (Raise e, w1) /\
      trace w1 = trace w /\ fs w1 = fs w /\ handle w1 = handle w).
Proof.
  pose proof (generate_result_log_outcomes w) as H.
  destruct (stdin w) as [|path rest].
  - right. eexists _, _. split; [exact H|]. repeat split.
  - destruct (store (log_path w) EmptyString (fs w)) as [t1|] eqn:Hst.
    + left. destruct H as (r & cs & H). now exists rest, t1, r, cs.
    + right. eexists _, _. split; [exact H|]. repeat split.
Qed.

(** The events of the mail step and the dispose step, in order: the mail
    attempt from its beginning to its end, then the trashing. *)
Lemma tail_trace w :
  trace (snd ((mail_step ;; dispose_step) w)) =
  (trace w ++ mail_events w ++ [EvTrash (attachment_path w)])%list.
Proof.
  destruct w as [o c0 t i u n hn un h tr rl ob ev].
  destruct i as [|receiver rest].
  - cbv beta iota zeta delta
      [mail_events relay_verdict message attachment_path
       mail_step dispose_step try_except bind input send_email getcwd
       yag_send print send2trash log_event set_stdout set_stdin set_outbox
       set_trash set_fs
       os cwd fs stdin stdout now hostname username handle trash relay outbox
       trace mail_attachments exn_text].
    match goal with |- context [detach ?p t] => destruct (detach p t) as [[x t2]|] end;
      cbv beta iota zeta delta [snd trace]; rewrite <- ?app_assoc; reflexivity.
  - cbv beta iota zeta delta
      [mail_events relay_verdict message attachment_path
       mail_step dispose_step try_except bind input send_email getcwd
       yag_send print send2trash log_event set_stdout set_stdin set_outbox
       set_trash set_fs
       os cwd fs stdin stdout now hostname username handle trash relay outbox
       trace mail_attachments exn_text].
    match goal with |- context [rl ?m ?f] => destruct (rl m f) as [e|] end;
    cbv beta iota zeta;
    match goal with |- context [detach ?p t] => destruct (detach p t) as [[x t2]|] end;
      cbv beta iota zeta delta [snd trace]; rewrite <- ?app_assoc; reflexivity.
Qed.

Lemma no_mail_begin_in_writes m p chunks :
  ~ In (EvMailBegin m)
       (EvOpen p :: List.app (map (EvWrite p) chunks) [EvClose p]).
Proof.
  intros [H|H]; [discriminate|].
  apply in_app_or in H. destruct H as [H|[H|[]]]; [|discriminate].
  apply in_map_iff in H. destruct H as (x & Hx & _). discriminate.
Qed.

(** ** Path strings *)

Section Fields.

Variable p : ascii -> bool.


Lemma fields_free a : free p a = true -> fields p a = [a].
Proof.
  induction a as [|c a IH]; simpl; [reflexivity|].
  intros H. apply andb_true_iff in H. destruct H as [Hc Ha].
  apply negb_true_iff in Hc. rewrite Hc, (IH Ha). reflexivity.
Qed.

(** A separator after a separator-free prefix ends the first field. *)
Lemma fields_free_sep a c b :
  free p a = true -> p c = true ->
  fields p (a ++ String c b) = a :: fields p b.
Proof.
  intros Ha Hc. induction a as [|x a IH]; simpl.
  - now rewrite Hc.
  - simpl in Ha. apply andb_true_iff in Ha. destruct Ha as [Hx Ha].
    apply negb_true_iff in Hx. rewrite Hx, (IH Ha). reflexivity.
Qed.

(** The fields of names joined by a separator are the names. *)
Lemma fields_joined c x names :
  p c = true -> free p x = true -> forallb (free p) names = true ->
  fields p (x ++ cat_all (map (String c) names)) = x :: names.
Proof.
  intros Hc. revert x. induction names as [|n names IH]; intros x Hx Hn; simpl.
  - rewrite append_empty_r. now apply fields_free.
  - simpl in Hn. apply andb_true_iff in Hn. destruct Hn as [Hn Hns].
    rewrite fields_free_sep by assumption. now rewrite IH.
Qed.

Lemma free_app a b : free p (a ++ b) = free p a && free p b.
Proof.
  induction a as [|x a IH]; simpl; [reflexivity|].
  now rewrite IH, andb_assoc.
Qed.

End Fields.

Lemma sep_free_free pf s : sep_free pf s = free (is_sep pf) s.
Proof. reflexivity. Qed.

Lemma normalize_length stack cs :
  length (normalize stack cs) <= length stack + length cs.
Proof.
  revert stack. induction cs as [|c cs IH]; intros stack; simpl.
  - rewrite length_rev. lia.
  - destruct (String.eqb c "."); [specialize (IH stack); lia|].
    destruct (String.eqb c "..").
    + specialize (IH (tl stack)). destruct stack; simpl in *; lia.
    + specialize (IH (c :: stack)). simpl in IH. lia.
Qed.

(** Without [.] and [..] nothing is resolved away. *)
Lemma normalize_plain stack cs :
  forallb (fun c => negb (String.eqb c ".") && negb (String.eqb c "..")) cs = true ->
  normalize stack cs = (rev stack ++ cs)%list.
Proof.
  revert stack. induction cs as [|c cs IH]; intros stack H; simpl.
  - now rewrite app_nil_r.
  - simpl in H. apply andb_true_iff in H. destruct H as [Hc Hcs].
    apply andb_true_iff in Hc. destruct Hc as [H1 H2].
    apply negb_true_iff in H1, H2. rewrite H1, H2, (IH _ Hcs). simpl.
    now rewrite <- app_assoc.
Qed.

Lemma valid_name_parts pf s :
  valid_name pf s = true ->
  nonempty s = true /\ free (is_sep pf) s = true /\
  negb (String.eqb s ".") && negb (String.eqb s "..") = true.
Proof.
  unfold valid_name. rewrite sep_free_free. intros H.
  apply andb_true_iff in H. destruct H as [H H4].
  apply andb_true_iff in H. destruct H as [H H3].
  apply andb_true_iff in H. destruct H as [H1 H2].
  rewrite H3, H4. auto.
Qed.

Lemma valid_names_free pf names :
  forallb (valid_name pf) names = true -> forallb (free (is_sep pf)) names = true.
Proof.
  induction names as [|n names IH]; simpl; [reflexivity|].
  intros H. apply andb_true_iff in H. destruct H as [Hn Hns].
  destruct (valid_name_parts _ _ Hn) as (_ & -> & _). now rewrite IH.
Qed.

Lemma valid_names_nonempty pf names :
  forallb (valid_name pf) names = true -> filter nonempty names = names.
Proof.
  induction names as [|n names IH]; simpl; [reflexivity|].
  intros H. apply andb_true_iff in H. destruct H as [Hn Hns].
  destruct (valid_name_parts _ _ Hn) as (-> & _ & _). now rewrite IH.
Qed.

Lemma valid_names_plain pf names :
  forallb (valid_name pf) names = true ->
  forallb (fun c => negb (String.eqb c ".") && negb (String.eqb c "..")) names = true.
Proof.
  induction names as [|n names IH]; simpl; [reflexivity|].
  intros H. apply andb_true_iff in H. destruct H as [Hn Hns].
  destruct (valid_name_parts _ _ Hn) as (_ & _ & ->). now rewrite IH.
Qed.

Lemma cat_all_map_snoc c names last tail :
  cat_all (map (String c) (List.app names [last])) ++ tail =
  cat_all (map (String c) (List.app names [last ++ tail])).
Proof.
  rewrite !map_app, !cat_all_app, append_assoc. simpl.
  now rewrite !append_empty_r.
Qed.

Lemma filter_length_le {A} (f : A -> bool) (l : list A) :
  length (filter f l) <= length l.
Proof.
  induction l as [|x l IH]; simpl; [lia|]. destruct (f x); simpl; lia.
Qed.

(** On Windows the path the mailer and the disposer build denotes the file
    the log writer opens. *)
Lemma attachment_windows wd :
  valid_cwd Windows wd = true ->
  resolve Windows wd (render_cwd Windows wd ++ "\directory_traversal_log.txt") =
  (wd ++ [log_name])%list.
Proof.
  unfold valid_cwd. intros H. apply andb_true_iff in H. destruct H as [Hnames Hdrive].
  destruct wd as [|d rest]; [discriminate|].
  assert (Hd : valid_name Windows d = true /\ forallb (valid_name Windows) rest = true)
    by (simpl in Hnames; now apply andb_true_iff in Hnames).
  destruct Hd as [Hd Hrest].
  destruct (valid_name_parts _ _ Hd) as (Hd1 & Hd2 & Hd3).
  assert (Hcomp : components Windows
                    (render_cwd Windows (d :: rest) ++ "\directory_traversal_log.txt")
                  = ((d :: rest) ++ [log_name])%list).
  { unfold components. destruct rest as [|r rest].
    - change (render_cwd Windows [d] ++ "\directory_traversal_log.txt")
        with ((d ++ "\") ++ "\directory_traversal_log.txt").
      rewrite append_assoc.
      change ("\" ++ "\directory_traversal_log.txt")
        with (cat_all (map (String "\"%char) [EmptyString; log_name])).
      rewrite (@fields_joined (is_sep Windows) "\"%char) by (auto; reflexivity).
      simpl. now rewrite Hd1.
    - change (render_cwd Windows (d :: r :: rest) ++ "\directory_traversal_log.txt")
        with ((d ++ cat_all (map (String "\"%char) (r :: rest)))
              ++ cat_all (map (String "\"%char) [log_name])).
      rewrite append_assoc, <- cat_all_app, <- map_app.
      rewrite (@fields_joined (is_sep Windows) "\"%char);
        [ | reflexivity | assumption | ].
      + change (filter nonempty (d :: ((r :: rest) ++ [log_name])%list))
          with (filter nonempty ((d :: r :: rest) ++ [log_name])%list).
        rewrite filter_app, (valid_names_nonempty _ _ Hnames). reflexivity.
      + rewrite forallb_app, (valid_names_free _ _ Hrest). reflexivity. }
  unfold resolve, base_of. rewrite Hcomp.
  change (((d :: rest) ++ [log_name])%list) with (d :: (rest ++ [log_name])%list) at 1.
  cbv iota. rewrite Hdrive. simpl rev.
  rewrite normalize_plain; [reflexivity|].
  rewrite forallb_app, (valid_names_plain _ _ Hnames). reflexivity.
Qed.

(** On a platform that separates with the slash, it denotes another file:
    the backslash is part of a name. *)
Lemma attachment_posix wd :
  valid_cwd Posix wd = true ->
  resolve Posix wd (render_cwd Posix wd ++ "\directory_traversal_log.txt") <>
  (wd ++ [log_name])%list.
Proof.
  unfold valid_cwd. rewrite andb_true_r. intros Hnames.
  destruct wd as [|c cs]; [vm_compute; discriminate|].
  destruct (@exists_last _ (c :: cs)) as (init & last & Hlast); [discriminate|].
  rewrite Hlast in *. clear Hlast c cs.
  assert (Hi : forallb (valid_name Posix) init = true /\ valid_name Posix last = true).
  { rewrite forallb_app in Hnames. apply andb_true_iff in Hnames.
    destruct Hnames as [Hi Hl]. simpl in Hl. rewrite andb_true_r in Hl. auto. }
  destruct Hi as [Hi Hl].
  destruct (valid_name_parts _ _ Hl) as (_ & Hl2 & _).
  assert (Hr : render_cwd Posix (init ++ [last])%list ++ "\directory_traversal_log.txt"
               = EmptyString ++ cat_all (map (String "/"%char)
                    (List.app init [last ++ "\directory_traversal_log.txt"]))).
  { unfold render_cwd. destruct (init ++ [last])%list eqn:E.
    - now destruct init.
    - rewrite <- E. apply cat_all_map_snoc. }
  unfold resolve. rewrite Hr.
  assert (Hb : base_of Posix (init ++ [last])%list
                 (EmptyString ++ cat_all (map (String "/"%char)
                    (List.app init [last ++ "\directory_traversal_log.txt"]))) = []).
  { unfold base_of. destruct init; reflexivity. }
  rewrite Hb. unfold components.
  rewrite (@fields_joined (is_sep Posix) "/"%char); [ | reflexivity | reflexivity | ].
  - intros Heq. apply (f_equal (@length string)) in Heq.
    pose proof (normalize_length (rev [])
                  (filter nonempty
                     (EmptyString :: List.app init [last ++ "\directory_traversal_log.txt"])))
      as Hn.
    pose proof (filter_length_le nonempty
                  (List.app init [last ++ "\directory_traversal_log.txt"])) as Hf.
    cbn [filter nonempty rev length] in Hn, Heq.
    rewrite !length_app in *. cbn [length] in *. lia.
  - rewrite forallb_app, (valid_names_free _ _ Hi). cbn [forallb].
    rewrite free_app, Hl2. reflexivity.
Qed.

(** When the relay refuses the message, the mail step prints the exception
    and returns normally, so the dispose step runs next. *)
Lemma mail_failure_is_caught w receiver rest e :
  stdin w = receiver :: rest ->
  relay_verdict w receiver = Some e ->
  exists w2,
    mail_step w = (Ret tt, w2) /\
    stdout w2 = List.app (stdout w) ["Enter your email id: "; exn_text e ++ nl] /\
    fs w2 = fs w /\ os w2 = os w /\ cwd w2 = cwd w /\ trash w2 = trash w /\
    outbox w2 = outbox w /\
    (mail_step ;; dispose_step) w = dispose_step w2.
Proof.
  destruct w as [o c0 t i u n hn un h tr rl ob ev].
  cbv beta iota zeta delta
      [relay_verdict message attachment_path
       os cwd fs stdin stdout now hostname username handle trash relay outbox trace].
  intros -> Hrel.
  cbv beta iota zeta delta
      [mail_step try_except bind input send_email getcwd yag_send print
       log_event set_stdout set_stdin set_outbox
       os cwd fs stdin stdout now hostname username handle trash relay outbox
       trace mail_attachments].
  rewrite Hrel. cbv beta iota.
  eexists. split; [reflexivity|].
  cbv beta iota zeta delta
      [os cwd fs stdin stdout now hostname username handle trash relay outbox trace].
  rewrite <- app_assoc. repeat split.
Qed.

(** ** The traversal *)
































(** ** The main block *)


(** ** The mail step *)

(** The mail step returns in a world with the same file tree, trash,
    platform, working directory and file object. *)
Lemma mail_step_frame w :
  exists w2,
    mail_step w = (Ret tt, w2) /\
    fs w2 = fs w /\ trash w2 = trash w /\ os w2 = os w /\ cwd w2 = cwd w /\
    handle w2 = handle w.
Proof.
  destruct w as [o c0 t i u n hn un h tr rl ob ev].
  destruct i as [|receiver rest].
  - eexists. split; [reflexivity|]. repeat split.
  - cbv beta iota zeta delta
      [mail_step try_except bind input send_email getcwd yag_send print
       log_event set_stdout set_stdin set_outbox
       os cwd fs stdin stdout now hostname username handle trash relay outbox
       trace mail_attachments].
    match goal with |- context [rl ?m ?f] => destruct (rl m f) as [e|] end;
      cbv beta iota; (eexists; split; [reflexivity|]); repeat split.
Qed.

(** ** The log writer when the file cannot be opened *)

(** A directory cannot be opened for writing. *)
Lemma store_at_directory p : forall c t b es,
  lookup p t = Some (Dir b es) -> store p c t = None.
Proof.
  induction p as [|k p IH]; intros c t b es; simpl.
  - now intros [= ->].
  - destruct t as [|b0 es0]; [discriminate|].
    destruct (find_entry k es0) as [ch|]; [|discriminate].
    intros H. now rewrite (IH c ch b es H).
Qed.

(** No file can be created in a directory that does not exist. *)
Lemma store_without_parent q : forall k c t,
  lookup q t = None -> store (q ++ [k])%list c t = None.
Proof.
  induction q as [|k0 q IH]; intros k c t; simpl; [discriminate|].
  destruct t as [|b es]; [reflexivity|].
  destruct (find_entry k0 es) as [ch|].
  - intros H. now rewrite (IH k c ch H).
  - intros _. destruct q; reflexivity.
Qed.

(** ** The dispose step *)







(** When the path the disposer builds denotes something, the dispose step
    moves it to the trash and returns. *)
Lemma dispose_step_found w p n t' :
  resolve (os w) (cwd w) (attachment_path w) = p ->
  detach p (fs w) = Some (n, t') ->
  exists w',
    dispose_step w = (Ret tt, w') /\
    fs w' = t' /\ trash w' = List.app (trash w) [(p, n)] /\
    stdout w' = stdout w /\ outbox w' = outbox w.
Proof.
  destruct w as [o c0 t i u n0 hn un h tr rl ob ev].
  cbv beta iota zeta delta
    [attachment_path os cwd fs stdin stdout now hostname username handle trash
     relay outbox trace].
  intros Hp Hd.
  cbv beta iota zeta delta
    [dispose_step bind getcwd send2trash log_event set_trash set_fs
     os cwd fs stdin stdout now hostname username handle trash relay outbox trace].
  rewrite Hp, Hd. eexists. split; [reflexivity|]. repeat split.
Qed.

(** ** The items of the walk *)






(** ** What the log writer leaves alone *)

(** Writing a file creates no directory and changes no directory's
    permission. *)
Lemma store_creates_no_directory q : forall p c t t1 b es,
  store p c t = Some t1 ->
  lookup q t1 = Some (Dir b es) ->
  exists es0, lookup q t = Some (Dir b es0).
Proof.
  induction q as [|k q IH]; intros p c t t1 b es Hst Hl.
  - simpl in Hl. injection Hl as ->.
    destruct p as [|k p], t as [x|b0 es0]; simpl in Hst; try discriminate.
    destruct (find_entry k es0) as [ch|].
    + destruct (store p c ch); [|discriminate]. injection Hst as <- _.
      now exists es0.
    + destruct p; [|discriminate]. injection Hst as <- _. now exists es0.
  - destruct p as [|k0 p], t as [x|b0 es0]; simpl in Hst; try discriminate.
    + injection Hst as <-. simpl in Hl. discriminate.
    + destruct (find_entry k0 es0) as [ch|] eqn:Hf.
      * destruct (store p c ch) as [ch'|] eqn:Hs; [|discriminate].
        injection Hst as <-. simpl in Hl. simpl.
        destruct (String.eqb_spec k0 k) as [->|Hne].
        -- rewrite find_entry_set_same in Hl. rewrite Hf.
           exact (IH _ _ _ _ _ _ Hs Hl).
        -- rewrite find_entry_set_other in Hl by assumption. now exists es.
      * destruct p; [|discriminate]. injection Hst as <-. simpl in Hl. simpl.
        destruct (String.eqb_spec k0 k) as [->|Hne].
        -- rewrite find_entry_set_same in Hl. destruct q; discriminate.
        -- rewrite find_entry_set_other in Hl by assumption. now exists es.
Qed.

(** Writing a file leaves every other regular file as it is, and makes no
    other regular file. *)
Lemma store_other_files p : forall q c t t1 x,
  store p c t = Some t1 -> q <> p ->
  (lookup q t1 = Some (File x) <-> lookup q t = Some (File x)).
Proof.
  induction p as [|k0 p IH]; intros q c t t1 x Hst Hq.
  - destruct t as [y|b es]; simpl in Hst; [|discriminate]. injection Hst as <-.
    destruct q as [|k q]; [congruence|]. simpl. split; discriminate.
  - destruct t as [y|b es]; simpl in Hst; [discriminate|].
    destruct q as [|k q].
    + destruct (find_entry k0 es) as [ch|].
      * destruct (store p c ch); [|discriminate]. injection Hst as <-.
        simpl. split; discriminate.
      * destruct p; [|discriminate]. injection Hst as <-. simpl. split; discriminate.
    + destruct (find_entry k0 es) as [ch|] eqn:Hf.
      * destruct (store p c ch) as [ch'|] eqn:Hs; [|discriminate].
        injection Hst as <-. simpl.
        destruct (String.eqb_spec k0 k) as [->|Hne].
        -- rewrite find_entry_set_same, Hf. apply (IH q c ch ch' x Hs). congruence.
        -- rewrite find_entry_set_other by assumption. reflexivity.
      * destruct p; [|discriminate]. injection Hst as <-. simpl.
        destruct (String.eqb_spec k0 k) as [->|Hne].
        -- rewrite find_entry_set_same, Hf.
           destruct q as [|k1 q]; [congruence|]. simpl. split; discriminate.
        -- rewrite find_entry_set_other by assumption. reflexivity.
Qed.

(** ** The log in its own listing *)



(** ** What the FOLDER lines denote *)










(** ** Loading the modules *)


(** ** The dispose step when the path denotes nothing *)



Lemma dispose_step_missing w :
  detach (resolve (os w) (cwd w) (attachment_path w)) (fs w) = None ->
  dispose_step w =
  (Raise (Exn "OSError" ("File not found: " ++ attachment_path w)),
   log_event w (EvTrash (attachment_path w))).
Proof.
  destruct w as [o c0 t i u n0 hn un h tr rl ob ev].
  cbv beta iota zeta delta
    [attachment_path os cwd fs stdin stdout now hostname username handle trash
     relay outbox trace].
  intros Hd.
  cbv beta iota zeta delta
    [dispose_step bind getcwd send2trash log_event set_trash set_fs
     os cwd fs stdin stdout now hostname username handle trash relay outbox trace].
  rewrite Hd. reflexivity.
Qed.


(** ** The file object at the end of a run *)

Lemma dispose_step_handle w : handle (snd (dispose_step w)) = handle w.
Proof.
  destruct w as [o c0 t i u n0 hn un h tr rl ob ev].
  cbv beta iota zeta delta
    [dispose_step bind getcwd send2trash log_event set_trash set_fs
     os cwd fs stdin stdout now hostname username handle trash relay outbox trace].
  match goal with |- context [detach ?p ?t0] => destruct (detach p t0) as [[x t']|] end;
    reflexivity.
Qed.

(** ** What a run leaves alone *)

Lemma find_entry_del_other k k' es :
  k <> k' -> find_entry k' (del_entry k es) = find_entry k' es.
Proof.
  intros Hne. induction es as [|[k0 v] es IH]; simpl; [reflexivity|].
  destruct (String.eqb_spec k0 k) as [->|Hk].
  - destruct (String.eqb_spec k k'); [contradiction | reflexivity].
  - simpl. now rewrite IH.
Qed.

(** Detaching a node leaves the regular files outside it as they are. *)
Lemma detach_other_files p : forall q t n t' x,
  detach p t = Some (n, t') ->
  (forall s, q <> (p ++ s)%list) ->
  (lookup q t' = Some (File x) <-> lookup q t = Some (File x)).
Proof.
  induction p as [|k p IH]; intros q t n t' x Hd Hq; [discriminate|].
  simpl in Hd. destruct t as [y|b es]; [discriminate|].
  destruct (find_entry k es) as [ch|] eqn:Hf; [|discriminate].
  destruct q as [|k0 q].
  - destruct p as [|k2 p].
    + injection Hd as _ <-. simpl. split; discriminate.
    + destruct (detach (k2 :: p) ch) as [[n0 ch']|]; [|discriminate].
      injection Hd as _ <-. simpl. split; discriminate.
  - destruct (String.eqb_spec k k0) as [<-|Hne].
    + destruct p as [|k2 p].
      * exfalso. apply (Hq q). reflexivity.
      * destruct (detach (k2 :: p) ch) as [[n0 ch']|] eqn:Hd'; [|discriminate].
        injection Hd as _ <-. simpl. rewrite find_entry_set_same, Hf.
        apply (IH q ch n0 ch' x Hd').
        intros s Hs. apply (Hq s). simpl. now rewrite Hs.
    + destruct p as [|k2 p].
      * injection Hd as _ <-. simpl. now rewrite find_entry_del_other.
      * destruct (detach (k2 :: p) ch) as [[n0 ch']|]; [|discriminate].
        injection Hd as _ <-. simpl. now rewrite find_entry_set_other.
Qed.

(** ** Root lines *)











(** ** Encodable text *)






(** ** The log writer and the old log *)

(** ** The tree a run leaves *)




(** ** The root line after the log has been created *)





(** * The claims *)

(** ** Setup (C9, C1) *)

(** C9: for every line read at the prompt, whether or not it denotes
    anything in the file tree, [setup] returns normally with the generator
    and the timestamp; the guarded block returns normally under every
    handler, so the handler that prints the error and exits is unreachable:
    nothing but the prompt is printed and no exit happens. *)
Theorem C9_setup_returns_normally w path rest (Hin : stdin w = path :: rest) :
  setup w = (Ret (Walk path, now w), after_setup w rest) /\
  (forall h w0, try_except (setup_guarded path) h w0 = (Ret (Walk path, now w0), w0)) /\
  stdout (after_setup w rest) = (stdout w ++ ["Enter Path: "])%list /\
  fs (after_setup w rest) = fs w.
Proof.
  split; [now apply setup_run|].
  split; [intros; apply setup_guarded_never_raises|].
  split; reflexivity.
Qed.

Lemma C9_setup_returns_normally_witness :
  let w := posix_world ["/no/such/directory"; "someone@example.org"] accepting_relay in
  lookup (resolve (os w) (cwd w) "/no/such/directory") (fs w) = None /\
  setup w = (Ret (Walk "/no/such/directory", now w),
             after_setup w ["someone@example.org"]).
Proof.
  split; [reflexivity|].
  apply (C9_setup_returns_normally
           (posix_world ["/no/such/directory"; "someone@example.org"] accepting_relay)
           (path := "/no/such/directory") (rest := ["someone@example.org"])).
  reflexivity.
Defined.

(** C1, evaluated at a root path that does not exist: no diagnostic is
    printed and no exit happens; the log writer runs and creates the
    artifact with the header alone, the mailer sends it and the disposer
    trashes it. *)
Theorem C1_missing_root_still_writes_the_log :
  let w := windows_world ["C:\Users\u\missing"; "someone@example.org"]
                         accepting_relay in
  lookup (resolve (os w) (cwd w) "C:\Users\u\missing") (fs w) = None /\
  (exists w1, generate_result_log w = (Ret tt, w1) /\
              stdout w1 = ["Enter Path: "; (nl ++ "All done :)") ++ nl] /\
              artifact w1 = Some (header_text sample_clock "host" "user")) /\
  (exists w2, main w = (Ret tt, w2) /\
              length (outbox w2) = 1 /\
              trash w2 = [(log_path w,
                           File (header_text sample_clock "host" "user"))]).
Proof.
  split; [reflexivity|].
  split; eexists; (split; [vm_compute; reflexivity|]); split; reflexivity.
Qed.

(** ** The log writer and an old log (C8) *)


(** ** Running the tool twice (C6) *)


(** ** The format of the log (C4) *)



(** ** The main sequence (C5) *)

(** C5: in every run of the main block that reaches the mailer, the log
    writer has returned before the mail attempt begins, with the file
    closed and holding every chunk written, the events of the log file
    being one open, the writes and one close; the mail step and the dispose
    step run from that world, and the trashing is recorded after the end of
    the mail attempt, whether the message was sent or not. *)
Theorem C5_log_closed_before_mail_before_trash w r w' m
  (Hfresh : trace w = [])
  (Hrun : main w = (r, w'))
  (Hmail : In (EvMailBegin m) (trace w')) :
  exists chunks sent w1,
    generate_result_log (after_info w) = (Ret tt, w1) /\
    handle w1 = None /\
    artifact w1 = Some (cat_all chunks) /\
    trace w1 = EvOpen (log_path w)
               :: List.app (map (EvWrite (log_path w)) chunks) [EvClose (log_path w)] /\
    (mail_step ;; dispose_step) w1 = (r, w') /\
    trace w' = List.app (trace w1)
                 [EvMailBegin m; EvMailEnd sent; EvTrash (mail_attachments m)].
Proof.
  rewrite main_unfold in Hrun.
  destruct (generate_result_log_cases (after_info w))
    as [(rest & t1 & r0 & cs & Hst & Hg)|(e & w1 & Hg & Htr & _)];
    rewrite Hg in Hrun.
  - assert (Htr0 : forall done,
               trace (after_writes (after_info w) rest t1 cs done) =
               EvOpen (log_path w)
               :: List.app (map (EvWrite (log_path w)) cs) [EvClose (log_path w)]).
    { intros done. unfold after_writes. cbn [trace].
      change (trace (after_info w)) with (trace w). rewrite Hfresh. reflexivity. }
    destruct r0 as [[]|e|n].
    + set (w1 := after_writes (after_info w) rest t1 cs true) in *.
      assert (Htr' : trace w' =
                     (trace w1 ++ mail_events w1
                      ++ [EvTrash (attachment_path w1)])%list).
      { rewrite <- tail_trace, Hrun. reflexivity. }
      rewrite Htr' in Hmail. apply in_app_or in Hmail.
      destruct Hmail as [Hmail|Hmail].
      { unfold w1 in Hmail. rewrite Htr0 in Hmail.
        now apply no_mail_begin_in_writes in Hmail. }
      unfold mail_events in Hmail, Htr'.
      destruct (stdin w1) as [|receiver rest'].
      { destruct Hmail as [Hmail|[]]. discriminate. }
      destruct Hmail as [Hmail|[Hmail|[Hmail|[]]]]; try discriminate.
      injection Hmail as <-.
      exists cs. eexists _, w1.
      split; [exact Hg|].
      split; [reflexivity|].
      split; [exact (proj2 (after_writes_artifact (after_info w) rest cs true Hst))|].
      split; [apply Htr0|].
      split; [exact Hrun|].
      exact Htr'.
    + injection Hrun as <- <-. rewrite Htr0 in Hmail.
      now apply no_mail_begin_in_writes in Hmail.
    + injection Hrun as <- <-. rewrite Htr0 in Hmail.
      now apply no_mail_begin_in_writes in Hmail.
  - injection Hrun as <- <-. rewrite Htr in Hmail.
    change (trace (after_info w)) with (trace w) in Hmail.
    rewrite Hfresh in Hmail. destruct Hmail.
Qed.

Lemma C5_log_closed_before_mail_before_trash_witness :
  let w := windows_world ["proj"; "someone@example.org"] refusing_relay in
  let m := message w "someone@example.org" in
  exists chunks sent w1,
    generate_result_log (after_info w) = (Ret tt, w1) /\
    handle w1 = None /\
    artifact w1 = Some (cat_all chunks) /\
    trace w1 = EvOpen (log_path w)
               :: List.app (map (EvWrite (log_path w)) chunks) [EvClose (log_path w)] /\
    (mail_step ;; dispose_step) w1 = (fst (main w), snd (main w)) /\
    trace (snd (main w)) =
      List.app (trace w1)
        [EvMailBegin m; EvMailEnd sent; EvTrash (mail_attachments m)].
Proof.
  intros w m.
  apply (@C5_log_closed_before_mail_before_trash w (fst (main w)) (snd (main w)) m).
  - reflexivity.
  - destruct (main w); reflexivity.
  - vm_compute. repeat (try (left; reflexivity); right).
Defined.

(** ** A mail that fails (C2) *)

(** C2, evaluated on a platform that separates with the slash, for an
    address the relay refuses: the exception of the mailer is printed and
    caught and the disposer is called, but on the path
    [/home/u\directory_traversal_log.txt], which denotes nothing: the
    disposer raises, nothing is moved to the trash and the artifact stays
    in the working directory. *)
Theorem C2_posix_mail_failure_leaves_the_log :
  let w := posix_world ["proj"; "not-an-address"] refusing_relay in
  exists w',
    main w = (Raise (Exn "OSError"
                         "File not found: /home/u\directory_traversal_log.txt"), w') /\
    stdout w' = List.app (stdout (after_info w))
                 ["Enter Path: "; (nl ++ "All done :)") ++ nl;
                  "Enter your email id: "; "Address was given as invalid" ++ nl] /\
    last (trace w') (EvTrash EmptyString)
      = EvTrash "/home/u\directory_traversal_log.txt" /\
    trash w' = [] /\
    lookup ["home"; "u\directory_traversal_log.txt"] (fs w') = None /\
    exists text, artifact w' = Some text.
Proof.
  eexists. split; [vm_compute; reflexivity|].
  split; [reflexivity|]. split; [reflexivity|]. split; [reflexivity|].
  split; [reflexivity|]. eexists. vm_compute. reflexivity.
Qed.

(** ** The two paths of the log (C10) *)

(** C10: the mailer attaches, and the disposer trashes, the path string made
    of the working directory, a backslash and the log's name: these are
    the paths of the events the mail step and the dispose step record.
    The log writer opens the log's name in the working directory: the
    only file it opens is at that path and, once a line has been read and
    the file can be created, it does open it, writes to it and closes it,
    and the text written is found there.  The two paths denote the same
    file exactly when the platform's separator is the backslash. *)
Theorem C10_backslash_path w (Hwd : valid_cwd (os w) (cwd w) = true) :
  (forall receiver,
      send_email receiver w =
      yag_send (Mail sender password receiver "Directory log"
                     "This is a system generated email, kindly do not reply."
                     (render_cwd (os w) (cwd w) ++ "\directory_traversal_log.txt")) w) /\
  dispose_step w =
    send2trash (render_cwd (os w) (cwd w) ++ "\directory_traversal_log.txt") w /\
  (trace (snd ((mail_step ;; dispose_step) w)) =
     List.app (trace w)
       (List.app (mail_events w)
          [EvTrash (render_cwd (os w) (cwd w) ++ "\directory_traversal_log.txt")]) /\
   forall m, In (EvMailBegin m) (mail_events w) ->
             mail_attachments m =
             render_cwd (os w) (cwd w) ++ "\directory_traversal_log.txt") /\
  log_path w = (cwd w ++ [log_name])%list /\
  (forall r w' p,
      generate_result_log w = (r, w') -> In (EvOpen p) (trace w') ->
      In (EvOpen p) (trace w) \/ p = (cwd w ++ [log_name])%list) /\
  (forall root rest t1,
      stdin w = root :: rest ->
      store (cwd w ++ [log_name])%list EmptyString (fs w) = Some t1 ->
      exists r w' cs,
        generate_result_log w = (r, w') /\
        trace w' =
          List.app (trace w)
            (EvOpen (cwd w ++ [log_name])%list
             :: List.app (map (EvWrite (cwd w ++ [log_name])%list) cs)
                         [EvClose (cwd w ++ [log_name])%list]) /\
        lookup (cwd w ++ [log_name])%list (fs w') = Some (File (cat_all cs))) /\
  (resolve (os w) (cwd w)
           (render_cwd (os w) (cwd w) ++ "\directory_traversal_log.txt")
   = (cwd w ++ [log_name])%list
   <-> sep (os w) = "\"%char).
Proof.
  split; [reflexivity|]. split; [reflexivity|].
  split.
  { split; [apply tail_trace|].
    unfold mail_events. destruct (stdin w) as [|receiver rest]; [intros m []|].
    intros m [H|[H|[]]]; [|discriminate]. injection H as <-. reflexivity. }
  split; [apply log_path_cwd|].
  rewrite <- !log_path_cwd.
  split.
  { intros r w' p Hg Hin.
    destruct (generate_result_log_cases w)
      as [(rest & t1 & r0 & cs & Hst & Hg')|(e & w1 & Hg' & Htr & _)];
      rewrite Hg' in Hg; injection Hg as <- <-.
    - unfold after_writes in Hin. cbn [trace] in Hin.
      apply in_app_or in Hin. destruct Hin as [Hin|[Hin|Hin]]; [now left| |].
      + injection Hin as <-. now right.
      + apply in_app_or in Hin. destruct Hin as [Hin|[Hin|[]]]; [|discriminate].
        apply in_map_iff in Hin. destruct Hin as (x & Hx & _). discriminate.
    - rewrite Htr in Hin. now left. }
  split.
  { intros root rest t1 Hin Hst.
    pose proof (generate_result_log_outcomes w) as Ho.
    rewrite Hin, Hst in Ho. destruct Ho as (r & cs & Hg).
    eexists r, _, cs. split; [exact Hg|]. split; [reflexivity|].
    destruct (@after_writes_artifact w rest t1 cs
                match r with Ret _ => true | _ => false end Hst) as [Hs _].
    exact (lookup_store _ _ _ Hs). }
  rewrite log_path_cwd. destruct (os w) eqn:E.
  - split.
    + intros H. now apply attachment_posix in H.
    + discriminate.
  - split; [reflexivity|]. intros _. now apply attachment_windows.
Qed.

Lemma C10_backslash_path_witness :
  let w := posix_world ["proj"] accepting_relay in
  resolve Posix ["home"; "u"] "/home/u\directory_traversal_log.txt"
    = ["home"; "u\directory_traversal_log.txt"] /\
  (exists r w' cs,
      generate_result_log w = (r, w') /\
      trace w' =
        List.app (trace w)
          (EvOpen ["home"; "u"; "directory_traversal_log.txt"]
           :: List.app (map (EvWrite ["home"; "u"; "directory_traversal_log.txt"]) cs)
                       [EvClose ["home"; "u"; "directory_traversal_log.txt"]]) /\
      lookup ["home"; "u"; "directory_traversal_log.txt"] (fs w')
        = Some (File (cat_all cs))) /\
  (resolve (os w) (cwd w)
           (render_cwd (os w) (cwd w) ++ "\directory_traversal_log.txt")
   = ["home"; "u"; "directory_traversal_log.txt"]
   <-> sep (os w) = "\"%char).
Proof.
  intros w. split; [reflexivity|].
  destruct (@C10_backslash_path w eq_refl) as (_ & _ & _ & _ & _ & Hopen & Hiff).
  split; [|exact Hiff].
  apply (Hopen "proj" []
           (Dir true [ ("home", Dir true [ ("u", Dir true
              [ ("proj", project_dir);
                ("directory_traversal_log.txt", File EmptyString) ]) ]) ]));
    reflexivity.
Defined.
(** ** The traversal (C7, C3) *)




(** * Further properties of the script *)

(** X1: At end of input the first prompt raises [EOFError], which nothing
    catches: the instructions and the prompt have been printed, and no
    file, mail or trash action has happened. *)
Theorem main_eof_at_path_prompt w (Hin : stdin w = []) :
  exists w',
    main w = (Raise (Exn "EOFError" "EOF when reading a line"), w') /\
    stdout w' = List.app (stdout (after_info w)) ["Enter Path: "] /\
    fs w' = fs w /\ trace w' = trace w /\ trash w' = trash w /\
    outbox w' = outbox w /\ handle w' = handle w.
Proof.
  rewrite main_unfold.
  unfold generate_result_log, setup, bind, input.
  change (stdin (after_info w)) with (stdin w). rewrite Hin.
  eexists. split; [reflexivity|]. repeat split.
Qed.

Lemma main_eof_at_path_prompt_witness :
  exists w',
    main (posix_world [] accepting_relay)
      = (Raise (Exn "EOFError" "EOF when reading a line"), w') /\
    stdout w' = List.app (stdout (after_info (posix_world [] accepting_relay)))
                         ["Enter Path: "] /\
    fs w' = posix_tree /\ trace w' = [] /\ trash w' = [] /\
    outbox w' = [] /\ handle w' = None.
Proof.
  apply (@main_eof_at_path_prompt (posix_world [] accepting_relay)). reflexivity.
Defined.

(** X2: The mail step always returns normally: whatever is read, and whatever
    the relay answers, no exception leaves the [try] statement.  It leaves
    the file tree, the open file and the trash as they are; the outbox
    grows by the message when the relay takes it, and by nothing
    otherwise; what is printed after the prompt is the success line or the
    text of the exception. *)
Theorem mail_step_always_returns w :
  exists w2,
    mail_step w = (Ret tt, w2) /\
    fs w2 = fs w /\ handle w2 = handle w /\ trash w2 = trash w /\
    os w2 = os w /\ cwd w2 = cwd w /\
    match stdin w with
    | [] =>
        outbox w2 = outbox w /\
        stdout w2 = List.app (stdout w)
                      ["Enter your email id: "; "EOF when reading a line" ++ nl] /\
        trace w2 = trace w
    | receiver :: rest =>
        stdin w2 = rest /\
        match relay_verdict w receiver with
        | None =>
            outbox w2 = List.app (outbox w) [message w receiver] /\
            stdout w2 = List.app (stdout w)
                          ["Enter your email id: "; "Email sent successfully" ++ nl] /\
            trace w2 = List.app (trace w)
                         [EvMailBegin (message w receiver); EvMailEnd true]
        | Some e =>
            outbox w2 = outbox w /\
            stdout w2 = List.app (stdout w)
                          ["Enter your email id: "; exn_text e ++ nl] /\
            trace w2 = List.app (trace w)
                         [EvMailBegin (message w receiver); EvMailEnd false]
        end
    end.
Proof.
  destruct w as [o c0 t i u n hn un h tr rl ob ev].
  destruct i as [|receiver rest].
  - eexists. split; [reflexivity|].
    cbv beta iota zeta delta
      [set_stdout os cwd fs stdin stdout now hostname username handle trash relay
       outbox trace exn_text].
    rewrite <- app_assoc. repeat split.
  - cbv beta iota zeta delta
      [relay_verdict message attachment_path
       mail_step try_except bind input send_email getcwd yag_send print
       log_event set_stdout set_stdin set_outbox
       os cwd fs stdin stdout now hostname username handle trash relay outbox
       trace mail_attachments].
    match goal with |- context [rl ?m ?f] => destruct (rl m f) as [e|] end;
      cbv beta iota; (eexists; split; [reflexivity|]);
      cbv beta iota zeta delta
        [os cwd fs stdin stdout now hostname username handle trash relay outbox trace];
      rewrite <- !app_assoc; repeat split.
Qed.

(** X3: When the name of the log denotes a directory, or the working directory
    does not exist, the log writer raises [OSError] after the prompt and
    the error ends the program: nothing is written, mailed or trashed. *)
Theorem main_stops_when_log_cannot_be_opened w root rest
  (Hin : stdin w = root :: rest)
  (Hbad : (exists b es, lookup (log_path w) (fs w) = Some (Dir b es)) \/
          lookup (cwd w) (fs w) = None) :
  exists w',
    main w = (Raise (Exn "OSError" log_name), w') /\
    stdout w' = List.app (stdout (after_info w)) ["Enter Path: "] /\
    stdin w' = rest /\
    fs w' = fs w /\ trace w' = trace w /\ trash w' = trash w /\
    outbox w' = outbox w /\ handle w' = handle w.
Proof.
  assert (Hst : store (log_path w) EmptyString (fs w) = None).
  { destruct Hbad as [(b & es & H)|H].
    - eapply store_at_directory; eauto.
    - rewrite log_path_cwd. now apply store_without_parent. }
  rewrite main_unfold. unfold generate_result_log.
  rewrite (@bind_ret _ _ _ _ _ _ _ (setup_run (after_info w) Hin)).
  unfold bind, with_open, open_w.
  change (os (after_setup (after_info w) rest)) with (os w).
  change (cwd (after_setup (after_info w) rest)) with (cwd w).
  change (fs (after_setup (after_info w) rest)) with (fs w).
  unfold log_path in Hst. rewrite Hst.
  eexists. split; [reflexivity|]. repeat split.
Qed.

Lemma main_stops_when_log_cannot_be_opened_witness :
  let w := set_fs (posix_world ["proj"; "someone@example.org"] accepting_relay)
                  (Dir true [ ("home", Dir true [ ("u", Dir true
                     [ ("proj", project_dir);
                       ("directory_traversal_log.txt", Dir true []) ]) ]) ]) in
  exists w',
    main w = (Raise (Exn "OSError" log_name), w') /\
    stdout w' = List.app (stdout (after_info w)) ["Enter Path: "] /\
    stdin w' = ["someone@example.org"] /\
    fs w' = fs w /\ trace w' = trace w /\ trash w' = trash w /\
    outbox w' = outbox w /\ handle w' = handle w.
Proof.
  intros w.
  apply (@main_stops_when_log_cannot_be_opened w "proj" ["someone@example.org"]).
  - reflexivity.
  - left. exists true, []. reflexivity.
Defined.





(** X7: However the log writer ends, the only regular file it creates or
    changes is the log: every other path denotes a regular file with a
    given text after the run exactly when it did before; and the
    directories are the same, with the same permission, before and after. *)
Theorem log_writer_touches_only_the_log w r w' q
  (Hrun : generate_result_log w = (r, w')) :
  (q <> log_path w ->
   forall x, lookup q (fs w') = Some (File x) <-> lookup q (fs w) = Some (File x)) /\
  (forall b, (exists es, lookup q (fs w') = Some (Dir b es)) <->
             (exists es, lookup q (fs w) = Some (Dir b es))).
Proof.
  destruct (generate_result_log_cases w)
    as [(rest & t1 & r0 & cs & Hst & Hg)|(e & w1 & Hg & _ & Hfs & _)];
    rewrite Hg in Hrun; injection Hrun as <- <-.
  - destruct (@after_writes_artifact w rest t1 cs
                match r0 with Ret _ => true | _ => false end Hst) as [Hs _].
    split.
    + intros Hq x. now apply (@store_other_files (log_path w) q (cat_all cs)).
    + intros b. split; intros [es Hl].
      * exact (@store_creates_no_directory q _ _ _ _ b es Hs Hl).
      * destruct (@store_keeps_directory q _ _ _ _ b es Hs Hl) as (es' & Hl' & _).
        now exists es'.
  - rewrite Hfs. split; [intros _ x|intros b]; reflexivity.
Qed.

Lemma log_writer_touches_only_the_log_witness :
  let w := posix_world ["proj"] accepting_relay in
  let w' := snd (generate_result_log w) in
  (["home"; "u"; "proj"; "A"; "x.txt"] <> log_path w ->
   forall x, lookup ["home"; "u"; "proj"; "A"; "x.txt"] (fs w') = Some (File x) <->
             lookup ["home"; "u"; "proj"; "A"; "x.txt"] (fs w) = Some (File x)) /\
  (forall b, (exists es, lookup ["home"; "u"; "proj"; "A"; "x.txt"] (fs w')
                         = Some (Dir b es)) <->
             (exists es, lookup ["home"; "u"; "proj"; "A"; "x.txt"] (fs w)
                         = Some (Dir b es))).
Proof.
  intros w w'.
  apply (@log_writer_touches_only_the_log w (fst (generate_result_log w)) w').
  unfold w'. destruct (generate_result_log w); reflexivity.
Defined.




(** X12: When [pip] returns, it returns the module asked for, and the module can
    be imported in the environment it leaves: a second call returns it
    without running the installer.  The installer has been run once, for
    that name, when the module could not be imported at first, and not at
    all otherwise. *)
Theorem pip_returns_loaded_module name v m v'
  (Hrun : pip name v = (Ret m, v')) :
  m = name /\
  import_raises v' name = None /\
  pip name v' = (Ret name, v') /\
  installs v' = List.app (installs v)
                  (match import_raises v name with
                   | None => []
                   | Some _ => [name]
                   end).
Proof.
  unfold pip, import_module in *.
  destruct (import_raises v name) as [e|] eqn:E.
  - destruct (import_error v e); [|discriminate].
    unfold check_call_pip_install in Hrun.
    destruct (installer v name (import_raises v)) as [status table].
    destruct (Nat.eqb status 0); [|discriminate].
    cbn in Hrun. destruct (table name) eqn:Ht; [discriminate|].
    injection Hrun as <- <-. cbn. rewrite Ht. repeat split.
  - injection Hrun as <- <-. rewrite E, app_nil_r. repeat split.
Qed.

Lemma pip_returns_loaded_module_witness :
  let v' := snd (pip "yagmail" sample_pyenv) in
  import_raises sample_pyenv "yagmail"
    = Some (Exn "ModuleNotFoundError" "No module named 'yagmail'") /\
  "yagmail" = "yagmail" /\
  import_raises v' "yagmail" = None /\
  pip "yagmail" v' = (Ret "yagmail", v') /\
  installs v' = ["yagmail"].
Proof.
  intros v'. split; [reflexivity|].
  apply (@pip_returns_loaded_module "yagmail" sample_pyenv "yagmail" v').
  reflexivity.
Defined.



(** X16: No run leaves the log file open: however the main block ends (end of
    input, a file that cannot be created, a mail that fails, a path that
    cannot be trashed, or normally), no file object is open at the end. *)
Theorem main_never_leaves_the_log_open w (Hclosed : handle w = None) :
  handle (snd (main w)) = None.
Proof.
  rewrite main_unfold.
  destruct (generate_result_log_cases (after_info w))
    as [(rest & t1 & r0 & cs & _ & Hg)|(e & w1 & Hg & _ & _ & Hh)];
    rewrite Hg.
  - destruct r0 as [[]|e|n]; [|reflexivity|reflexivity].
    set (w1 := after_writes (after_info w) rest t1 cs true).
    destruct (mail_step_frame w1) as (w2 & Hmail & _ & _ & _ & _ & Hh).
    rewrite (@bind_ret _ _ _ _ _ _ _ Hmail).
    rewrite dispose_step_handle, Hh. reflexivity.
  - simpl. rewrite Hh. exact Hclosed.
Qed.

Lemma main_never_leaves_the_log_open_witness :
  handle (snd (main (posix_world ["proj"; "someone@example.org"] refusing_relay)))
  = None.
Proof.
  apply (@main_never_leaves_the_log_open
           (posix_world ["proj"; "someone@example.org"] refusing_relay)).
  reflexivity.
Defined.

(** X17: However a run of the main block ends, it leaves every regular file
    other than the log and what the trashed path denotes as it was, and
    makes no other regular file: a path that is not the log's and does not
    lead to or through what the path string of the dispose step denotes
    holds a regular file with a given text after the run exactly when it
    did before. *)
Theorem run_touches_only_the_log_and_the_trashed_path w r w' q x
  (Hrun : main w = (r, w'))
  (Hlog : q <> log_path w)
  (Htrash : forall s,
      q <> List.app (resolve (os w) (cwd w) (attachment_path w)) s) :
  lookup q (fs w') = Some (File x) <-> lookup q (fs w) = Some (File x).
Proof.
  rewrite main_unfold in Hrun.
  destruct (generate_result_log_cases (after_info w))
    as [(rest & t1 & r0 & cs & Hst & Hg)|(e & w1 & Hg & _ & Hfs & _)];
    rewrite Hg in Hrun.
  - destruct (@after_writes_artifact (after_info w) rest t1 cs
                match r0 with Ret _ => true | _ => false end Hst) as [Hs _].
    change (fs (after_info w)) with (fs w) in Hs.
    change (log_path (after_info w)) with (log_path w) in Hs.
    set (w1 := after_writes (after_info w) rest t1 cs
                 match r0 with Ret _ => true | _ => false end) in *.
    rewrite <- (@store_other_files (log_path w) q (cat_all cs) (fs w) (fs w1) x Hs Hlog).
    destruct r0 as [[]|e|n];
      [|injection Hrun as _ <-; reflexivity|injection Hrun as _ <-; reflexivity].
    destruct (mail_step_frame w1) as (w2 & Hmail & Hfs & _ & Hos2 & Hcwd2 & _).
    rewrite (@bind_ret _ _ _ _ _ _ _ Hmail) in Hrun.
    assert (Hatt : attachment_path w2 = attachment_path w).
    { unfold attachment_path. now rewrite Hos2, Hcwd2. }
    rewrite <- Hfs.
    destruct (detach (resolve (os w2) (cwd w2) (attachment_path w2)) (fs w2))
      as [[n t']|] eqn:Hd.
    + destruct (@dispose_step_found w2 _ n t' eq_refl Hd) as (w3 & Hrun3 & Hfs3 & _).
      rewrite Hrun3 in Hrun. injection Hrun as _ <-. rewrite Hfs3.
      apply (@detach_other_files _ q (fs w2) n t' x Hd).
      rewrite Hatt, Hos2, Hcwd2. exact Htrash.
    + rewrite (dispose_step_missing w2 Hd) in Hrun. injection Hrun as _ <-.
      reflexivity.
  - injection Hrun as _ <-. now rewrite Hfs.
Qed.

Lemma run_touches_only_the_log_and_the_trashed_path_witness :
  let w := windows_world ["proj"; "someone@example.org"] accepting_relay in
  lookup ["C:"; "Users"; "u"; "proj"; "A"; "x.txt"] (fs (snd (main w)))
    = Some (File "hi") <->
  lookup ["C:"; "Users"; "u"; "proj"; "A"; "x.txt"] (fs w) = Some (File "hi").
Proof.
  intros w.
  apply (@run_touches_only_the_log_and_the_trashed_path w (fst (main w)) (snd (main w))).
  - destruct (main w); reflexivity.
  - vm_compute. discriminate.
  - intros s. vm_compute. discriminate.
Defined.





